(** * Animation source reconstruction: clip selection, sample decoding and
      track merging of [decompile_anims.py]

    The development follows the Python module function by function.  Frame
    numbers and checksums are Python integers ([Z]); playback rates, speed
    modifiers and sample components are IEEE doubles (primitive floats);
    dictionaries are finite maps; code that may raise returns a [result];
    code that prints, writes files or starts the bake tool runs in the small
    trace monad [io]. *)

From Stdlib Require Import ZArith PrimFloat Lia.
From stdpp Require Import gmap strings pretty list sorting.

Open Scope Z_scope.

(** ** Exceptions and effects *)

(** The Python exceptions the modelled code can raise. *)
Inductive exn : Type :=
  | ValueError   (* [min()] / [max()] of an empty sequence *)
  | IndexError   (* list index out of range *)
  | TypeError    (* subscripting [None] *)
  | NameError.   (* reading a variable that was never bound *)

Inductive result (A : Type) : Type :=
  | Ok (a : A)
  | Raise (e : exn).
Arguments Ok {A} a.
Arguments Raise {A} e.

#[global] Instance result_bind : MBind result := λ A B k r,
  match r with
  | Ok a => k a
  | Raise e => Raise e
  end.

(** [min(...)] and [max(...)] over a generator of integers. *)
Definition py_min (l : list Z) : result Z :=
  match l with
  | [] => Raise ValueError
  | x :: l' => Ok (foldl Z.min x l')
  end.

Definition py_max (l : list Z) : result Z :=
  match l with
  | [] => Raise ValueError
  | x :: l' => Ok (foldl Z.max x l')
  end.

(** [sorted(l, key=...)]: Python's sort is stable, so the result is the
    unique stable arrangement, computed here by insertion. *)
Section Sorted.
Context {A : Type} (key : A → Z).

Fixpoint insert_by (x : A) (l : list A) : list A :=
  match l with
  | [] => [x]
  | y :: l' => if key x <=? key y then x :: y :: l' else y :: insert_by x l'
  end.

Definition py_sorted (l : list A) : list A := foldr insert_by [] l.
End Sorted.

(** [itertools.combinations(l, r)]: the [r]-element selections of [l], by
    position, in lexicographic order of the positions. *)
Fixpoint combinations {A : Type} (l : list A) (r : nat) : list (list A) :=
  match r with
  | O => [[]]
  | S r' =>
      match l with
      | [] => []
      | x :: l' => ((x ::.) <$> combinations l' r') ++ combinations l' r
      end
  end.

(** ** Clips *)

(** An animation entry of a model script, as far as the module reads it. *)
Module Ani.
Record t : Type := Make {
  name : string;
  model : string;
  first_frame : Z;
  last_frame : Z;
  fps : float;
  speed : float
}.
End Ani.

(** ** Range analyzer *)

(** The body of the loop [for i in range(1, len(ranges))], with
    [prev = ranges[i - 1]] and the remaining elements from [ranges[i]] on. *)
Fixpoint check_adjacent (prev : Ani.t) (rest : list Ani.t) : bool :=
  match rest with
  | [] => true
  | curr :: rest' =>
      if Ani.first_frame curr <=? Ani.last_frame prev then false      (* Overlap *)
      else if negb (Ani.first_frame curr =? Ani.last_frame prev + 1) then false  (* Gap *)
      else check_adjacent curr rest'
  end.

Definition is_continuous_and_non_overlapping (ranges : list Ani.t) : bool :=
  let ranges := py_sorted Ani.first_frame ranges in
  match ranges with
  | [] => true
  | r0 :: rest => check_adjacent r0 rest
  end.

(** ** Combination selector *)

Definition span (a : Ani.t) : Z := Ani.last_frame a - Ani.first_frame a.

(** [a.fps == 25.0 and a.speed == 0] *)
Definition not_sped_up (a : Ani.t) : bool :=
  PrimFloat.eqb (Ani.fps a) 25%float && PrimFloat.eqb (Ani.speed a) 0%float.

(** One visit of the inner loop body: a valid combination replaces the best
    one only when it is strictly longer. *)
Definition consider (best_combo combo : list Ani.t) : list Ani.t :=
  if is_continuous_and_non_overlapping combo then
    if (length best_combo <? length combo)%nat then combo else best_combo
  else best_combo.

(** The combinations in the order the two nested loops visit them:
    sizes [2 .. len(anis)], and for each size [combinations(anis, r)]. *)
Definition enumeration (anis : list Ani.t) : list (list Ani.t) :=
  r ← seq 2 (length anis - 1); combinations anis r.

(** The search loop, started from [best_combo = []]. *)
Definition exact_cover_search (anis : list Ani.t) : list Ani.t :=
  foldl (λ best_combo r, foldl consider best_combo (combinations anis r))
        [] (seq 2 (length anis - 1)).

(** The branch taken when no combination was found. *)
Definition largest_span (anis : list Ani.t) : result (list Ani.t) :=
  max_span ← py_max (span <$> anis);
  let best_combo := filter (λ a, span a = max_span) anis in
  if (1 <? length best_combo)%nat then
    let notSpedUp := filter (λ a, not_sped_up a) best_combo in
    match notSpedUp with
    | [] =>
        match best_combo with
        | b0 :: _ => Ok [b0]
        | [] => Raise IndexError
        end
    | a0 :: _ => Ok [a0]
    end
  else Ok best_combo.

(** The selection before the full-range check: the search result, or the
    fallback when the search left [best_combo] empty. *)
Definition select_candidate (anis : list Ani.t) : result (list Ani.t) :=
  match exact_cover_search anis with
  | [] => largest_span anis
  | best_combo => Ok best_combo
  end.

(** The returned list of [find_best_anis_combo].  The diagnostic printed
    before returning does not influence the result and is left out. *)
Definition find_best_anis_combo (asc_name : string) (anis : list Ani.t)
  : result (list Ani.t) :=
  if (length anis =? 1)%nat then Ok anis
  else
    full_start ← py_min (Ani.first_frame <$> anis);
    full_end ← py_max (Ani.last_frame <$> anis);
    best_combo ← select_candidate anis;
    best_combo_start ← py_min (Ani.first_frame <$> best_combo);
    best_combo_end ← py_max (Ani.last_frame <$> best_combo);
    if negb (best_combo_start =? full_start) || negb (best_combo_end =? full_end)
    then Ok anis
    else Ok best_combo.

(** The pair [(min first_frame, max last_frame)] of a list of clips, as
    computed for the whole input and for the selection. *)
Definition frame_range (anis : list Ani.t) : result (Z * Z) :=
  start ← py_min (Ani.first_frame <$> anis);
  stop ← py_max (Ani.last_frame <$> anis);
  Ok (start, stop).

(** ** Skeletons and sample streams *)

(** A model hierarchy as read back from its intermediate JSON file, as far
    as this module reads it: the checksum and the names of the nodes. *)
Module Mdh.
Record node : Type := Node { name : string }.
Record t : Type := Make {
  checksum : Z;
  nodes : list node
}.
End Mdh.

Module Sample.
Record vec3 : Type := Vec3 { x : float; y : float; z : float }.
Record quat : Type := Quat { qx : float; qy : float; qz : float; qw : float }.
Record t : Type := Make {
  position : vec3;
  rotation : quat
}.
End Sample.

(** A loaded [ModelAnimation]. *)
Module ModelAnimation.
Record t : Type := Make {
  checksum : Z;
  frame_count : Z;
  fps : float;
  fps_source : float;
  layer : Z;
  node_indices : list nat;
  samples : list Sample.t
}.
End ModelAnimation.

(** The dictionaries built by [parse_man] and [convert_anis].  [V] is the
    type of the values stored under a frame key. *)
Module Data.
Record tracks (V : Type) : Type := Tracks {
  translation : gmap nat V;
  rotation : gmap nat V
}.
Arguments Tracks {V} _ _.
Arguments translation {V} _.
Arguments rotation {V} _.

Record t (V : Type) : Type := Make {
  checksum : Z;
  frame_count : Z;
  fps : float;
  fps_source : float;
  layer : Z;
  source_script : gmap string ();
  frames : gmap string (tracks V)
}.
Arguments Make {V} _ _ _ _ _ _ _.
Arguments checksum {V} _.
Arguments frame_count {V} _.
Arguments fps {V} _.
Arguments fps_source {V} _.
Arguments layer {V} _.
Arguments source_script {V} _.
Arguments frames {V} _.

(** [man_data_merged]: the hierarchy and the merged animation. *)
Record merged : Type := Merged {
  hierarchy : Mdh.t;
  animation : t float
}.
End Data.

(** [l[i]] for a non-negative index. *)
Definition py_index {A : Type} (l : list A) (i : nat) : result A :=
  match l !! i with
  | Some a => Ok a
  | None => Raise IndexError
  end.

(** The value of a [for] loop's variable read after the loop over [l]:
    the last element, or no binding at all when [l] is empty. *)
Definition loop_variable {A : Type} (l : list A) : result A :=
  match last l with
  | Some a => Ok a
  | None => Raise NameError
  end.

(** A value stored under a frame key, seen as a Python object: [parse_man]
    stores lists of floats, the merge loop stores what it assigns. *)
Inductive pyvalue : Type :=
  | PyFloat (f : float)
  | PyList (l : list float).

Section Decoder.
(** Python's builtin [round(number, ndigits)] on floats. *)
Variable round : float → Z → float.

(** [rf(f, accuracy)]; callers that omit [accuracy] pass the default 4. *)
Definition rf (f : float) (accuracy : Z) : float := round f accuracy.

Definition empty_tracks {V : Type} : Data.tracks V := Data.Tracks ∅ ∅.

(** [if bone not in frames: frames[bone] = {'translation': {}, 'rotation': {}}] *)
Definition ensure_bone {V : Type} (bone : string)
    (frames : gmap string (Data.tracks V)) : gmap string (Data.tracks V) :=
  match frames !! bone with
  | None => <[bone := empty_tracks]> frames
  | Some _ => frames
  end.

Definition set_translation {V} (k : nat) (v : V) (t : Data.tracks V) : Data.tracks V :=
  Data.Tracks (<[k := v]> (Data.translation t)) (Data.rotation t).

Definition set_rotation {V} (k : nat) (v : V) (t : Data.tracks V) : Data.tracks V :=
  Data.Tracks (Data.translation t) (<[k := v]> (Data.rotation t)).

(** The loop [for sample_index, sample in enumerate(samples)] of
    [parse_man], from the state [(sample_index, bone_offset, frames)]. *)
Fixpoint parse_samples (node_indices : list nat) (nodes : list Mdh.node)
    (samples : list Sample.t) (sample_index bone_offset : nat)
    (frames : gmap string (Data.tracks (list float)))
  : result (gmap string (Data.tracks (list float))) :=
  match samples with
  | [] => Ok frames
  | sample :: samples' =>
      let bone_offset :=
        if (length node_indices <=? bone_offset)%nat then 0%nat else bone_offset in
      bone_index ← py_index node_indices bone_offset;
      node ← py_index nodes bone_index;
      let bone_name := Mdh.name node in
      let frames := ensure_bone bone_name frames in
      let p := Sample.position sample in
      let q := Sample.rotation sample in
      let translation := [Sample.x p; Sample.y p; Sample.z p] in
      let rotation := [Sample.qx q; Sample.qy q; Sample.qz q; Sample.qw q] in
      let translation := (λ f, rf f 4) <$> translation in
      let rotation := (λ f, rf f 4) <$> rotation in
      let frames := alter (set_translation sample_index translation) bone_name frames in
      let frames := alter (set_rotation sample_index rotation) bone_name frames in
      parse_samples node_indices nodes samples' (S sample_index) (bone_offset + 1)%nat frames
  end.

(** [parse_man]: [Ok None] is the early [return None]. *)
Definition parse_man (model_animation : ModelAnimation.t) (mdh_dict : Mdh.t)
  : result (option (Data.t (list float))) :=
  if negb (ModelAnimation.checksum model_animation =? Mdh.checksum mdh_dict)
  then Ok None
  else
    frames ← parse_samples (ModelAnimation.node_indices model_animation)
               (Mdh.nodes mdh_dict) (ModelAnimation.samples model_animation)
               0%nat 0%nat ∅;
    Ok (Some (Data.Make
                (ModelAnimation.checksum model_animation)
                (ModelAnimation.frame_count model_animation)
                (ModelAnimation.fps model_animation)
                (ModelAnimation.fps_source model_animation)
                (ModelAnimation.layer model_animation)
                ∅ frames)).

(** ** Track merger *)

(** [for v in values: merged[bone][trackName][frame] = v] *)
Definition merge_values (frame : nat) (values : list float)
    (track : gmap nat float) : gmap nat float :=
  foldl (λ track v, <[frame := v]> track) track values.

(** [for frame, values in trackFrames.items(): ...] *)
Definition merge_track (trackFrames : gmap nat (list float))
    (track : gmap nat float) : gmap nat float :=
  map_fold merge_values track trackFrames.

(** The body of [for bone, tracks in man_data['frames'].items()]; the
    inner loop over [tracks.items()] visits 'translation', then
    'rotation'. *)
Definition merge_bone (bone : string) (tracks : Data.tracks (list float))
    (merged_frames : gmap string (Data.tracks float))
  : gmap string (Data.tracks float) :=
  let merged_frames := ensure_bone bone merged_frames in
  let merged_frames :=
    alter (λ t, Data.Tracks (merge_track (Data.translation tracks) (Data.translation t))
                            (Data.rotation t)) bone merged_frames in
  alter (λ t, Data.Tracks (Data.translation t)
                          (merge_track (Data.rotation tracks) (Data.rotation t)))
        bone merged_frames.

Definition merge_frames (frames : gmap string (Data.tracks (list float)))
    (merged_frames : gmap string (Data.tracks float))
  : gmap string (Data.tracks float) :=
  map_fold merge_bone merged_frames frames.

(** The loop [for model_animation in model_animations].  The state is the
    merged frames and the variable [man_data], which the code reads again
    after the loop; subscripting a [None] decode raises [TypeError]. *)
Fixpoint merge_loop (mdh : Mdh.t) (model_animations : list ModelAnimation.t)
    (merged_frames : gmap string (Data.tracks float))
    (man_data : option (Data.t (list float)))
  : result (gmap string (Data.tracks float) * option (Data.t (list float))) :=
  match model_animations with
  | [] => Ok (merged_frames, man_data)
  | model_animation :: rest =>
      decoded ← parse_man model_animation mdh;
      match decoded with
      | None => Raise TypeError
      | Some man_data =>
          merge_loop mdh rest (merge_frames (Data.frames man_data) merged_frames)
                     (Some man_data)
      end
  end.
End Decoder.

(** ** Documents, effects and the conversion of one source track *)

(** JSON values; an object is an unordered collection of members. *)
Unset Elimination Schemes.
Inductive json : Type :=
  | JInt (n : Z)
  | JFloat (f : float)
  | JString (s : string)
  | JList (l : list json)
  | JObject (members : gmap string json).
Set Elimination Schemes.

(** [str(k)] for a frame key: [json.dumps] turns integer keys into their
    decimal strings. *)
Definition json_frame_map {V : Type} (to_json : V → json) (m : gmap nat V) : json :=
  JObject (kmap (pretty : nat → string) (to_json <$> m)).

Definition json_of_tracks {V : Type} (to_json : V → json) (t : Data.tracks V) : json :=
  JObject {[ "translation"%string := json_frame_map to_json (Data.translation t);
             "rotation"%string := json_frame_map to_json (Data.rotation t) ]}.

Definition json_of_data {V : Type} (to_json : V → json) (d : Data.t V) : json :=
  JObject {[ "checksum"%string := JInt (Data.checksum d);
             "frame_count"%string := JInt (Data.frame_count d);
             "fps"%string := JFloat (Data.fps d);
             "fps_source"%string := JFloat (Data.fps_source d);
             "layer"%string := JInt (Data.layer d);
             "source_script"%string := JObject ∅;
             "frames"%string := JObject (json_of_tracks to_json <$> Data.frames d) ]}.

Definition json_of_mdh (mdh : Mdh.t) : json :=
  JObject {[ "checksum"%string := JInt (Mdh.checksum mdh);
             "nodes"%string :=
               JList ((λ n, JObject {[ "name"%string := JString (Mdh.name n) ]})
                        <$> Mdh.nodes mdh) ]}.

(** The document for a decoded clip ([man_data]) and the document for the
    merged structure ([man_data_merged]). *)
Definition json_of_man_data (d : Data.t (list float)) : json :=
  json_of_data (λ values, JList (JFloat <$> values)) d.

Definition json_of_merged (m : Data.merged) : json :=
  JObject {[ "hierarchy"%string := json_of_mdh (Data.hierarchy m);
             "animation"%string := json_of_data JFloat (Data.animation m) ]}.

(** Observable effects, in program order. *)
Inductive event : Type :=
  | Print (line : string)
  | WriteText (save_path : string) (json_data : json)
  | RunBlender.

Definition io (A : Type) : Type := (list event * result A)%type.

#[global] Instance io_ret : MRet io := λ A a, ([], Ok a).
#[global] Instance io_bind : MBind io := λ A B k m,
  match m with
  | (tr, Ok a) => let '(tr', r) := k a in (tr ++ tr', r)
  | (tr, Raise e) => (tr, Raise e)
  end.

Definition emit (e : event) : io () := ([e], Ok ()).
Definition lift {A : Type} (r : result A) : io A := ([], r).

(** A [.MAN] file: its path relative to the extract folder, its stem, and
    the animation [ModelAnimation.load] reads from it. *)
Module ManFile.
Record t : Type := Make {
  relative_path : string;
  stem : string;
  load : ModelAnimation.t
}.
End ManFile.

(** Reading the global [blender_script_file_path]: no line of the module
    binds that name, so the read raises [NameError]. *)
Definition blender_script_file_path : result string := Raise NameError.

Section Convert.
Variable round : float → Z → float.

(** The merging part of [convert_anis], from [mdh = mdh_dict[checksum]]
    to the end of the loop over [model_animations]: the state it leaves is
    the structure [man_data_merged] and the variable [man_data], the decode
    of the stream processed last.  [model_animation], read for the header,
    is still the loading loop's variable: the animation loaded last. *)
Definition merge_model_animations (man_file_paths : list ManFile.t)
    (mdh : Mdh.t) (checksum : Z) : result (Data.merged * Data.t (list float)) :=
  let model_animations := ManFile.load <$> man_file_paths in
  model_animation ← loop_variable model_animations;
  let man_data_merged :=
    Data.Merged mdh
      (Data.Make checksum
         (ModelAnimation.frame_count model_animation)
         (ModelAnimation.fps model_animation)
         (ModelAnimation.fps_source model_animation)
         (ModelAnimation.layer model_animation)
         ∅ ∅) in
  '(merged_frames, man_data) ←
    merge_loop round mdh model_animations
      (Data.frames (Data.animation man_data_merged)) None;
  man_data ← match man_data with
             | Some d => Ok d
             | None => Raise NameError
             end;
  let animation := Data.animation man_data_merged in
  Ok (Data.Merged (Data.hierarchy man_data_merged)
        (Data.Make (Data.checksum animation) (Data.frame_count animation)
           (Data.fps animation) (Data.fps_source animation) (Data.layer animation)
           (Data.source_script animation) merged_frames),
      man_data).

(** [convert_anis].  A [return] after the ABORT message ends the call
    normally.  [man_file], read for the save path, is the loading loop's
    variable: the last file.  The save path is taken relative to the
    intermediate folder; creating its parent folder is part of the write.
    The arguments of [helpers.run_blender] are evaluated before the call,
    and the second one is the unbound global. *)
Definition convert_anis (asc_name mds_name : string) (anis : list Ani.t)
    (man_file_paths : list ManFile.t) (mdh_dict : gmap Z Mdh.t) : io () :=
  let model_animations := ManFile.load <$> man_file_paths in
  let checksums : gset Z := list_to_set (ModelAnimation.checksum <$> model_animations) in
  if negb (size checksums =? 1)%nat then
    emit (Print ("ASC: " +:+ asc_name +:+ ", ani checksums are different. ABORT"))
  else
    first_animation ← lift (py_index model_animations 0);
    let checksum := ModelAnimation.checksum first_animation in
    match mdh_dict !! checksum with
    | None => emit (Print ("ASC: " +:+ asc_name +:+ ", could not find correct MDH. ABORT"))
    | Some mdh =>
        man_file ← lift (loop_variable man_file_paths);
        let relative_path := ManFile.relative_path man_file in
        '(man_data_merged, man_data) ←
          lift (merge_model_animations man_file_paths mdh checksum);
        let save_path := relative_path +:+ ".json" in
        let json_data := json_of_man_data man_data in
        _ ← emit (WriteText save_path json_data);
        _ ← emit (Print ("prepared: " +:+ relative_path));
        script ← lift blender_script_file_path;
        _ ← emit RunBlender;
        emit (Print "[MODEL ANIMATION] End convert MAN via blender")
    end.

(** The loop [for asc_name, anis in anis_by_asc_dict.items()] of
    [convert], over the items in dictionary order. *)
Fixpoint convert_tracks (mds_name : string) (man_file_path_list : list ManFile.t)
    (mdh_by_checksum : gmap Z Mdh.t)
    (anis_by_asc_dict : list (string * list Ani.t)) : io () :=
  match anis_by_asc_dict with
  | [] => mret ()
  | (asc_name, anis) :: rest =>
      let ani_names : gset string := list_to_set (Ani.name <$> anis) in
      let man_files :=
        filter (λ path, ManFile.stem path ∈ ani_names) man_file_path_list in
      _ ← convert_anis asc_name mds_name anis man_files mdh_by_checksum;
      convert_tracks mds_name man_file_path_list mdh_by_checksum rest
  end.
End Convert.

(** The index [mdh_by_checksum] built by [convert] from the hierarchy
    files: each record is stored under its own checksum. *)
Definition mdh_by_checksum (mdh_files : list Mdh.t) : gmap Z Mdh.t :=
  foldl (λ index mdh_dict, <[Mdh.checksum mdh_dict := mdh_dict]> index) ∅ mdh_files.

(** ** Reading the dictionaries *)

(** The entry stored for a bone under a frame key, in either track. *)
Definition translation_at {V : Type} (frames : gmap string (Data.tracks V))
    (bone : string) (key : nat) : option V :=
  t ← frames !! bone; Data.translation t !! key.

Definition rotation_at {V : Type} (frames : gmap string (Data.tracks V))
    (bone : string) (key : nat) : option V :=
  t ← frames !! bone; Data.rotation t !! key.

(** The two tracks of a bone, and the entry at a (bone, track, key). *)
Inductive track_name : Type := Translation | Rotation.

Definition entry_at {V : Type} (frames : gmap string (Data.tracks V))
    (bone : string) (trackName : track_name) (key : nat) : option V :=
  match trackName with
  | Translation => translation_at frames bone key
  | Rotation => rotation_at frames bone key
  end.

(** What the assignment loop [for v in values: ...[frame] = v] leaves under
    [frame]: the last element of [values], if there is one. *)
Definition left_by_assignments (values : option (list float)) : option float :=
  values ≫= last.

(** The merged frames after folding the decoded clips [decoded], in
    order, into [merged_frames]. *)
Definition fold_decoded (decoded : list (Data.t (list float)))
    (merged_frames : gmap string (Data.tracks float))
  : gmap string (Data.tracks float) :=
  foldl (λ merged_frames man_data, merge_frames (Data.frames man_data) merged_frames)
        merged_frames decoded.

(** The bone the specification assigns to the sample at flat index [i]:
    the name of [nodes[node_indices[i mod len(node_indices)]]], when both
    indices are in range. *)
Definition cycled_bone_name (node_indices : list nat) (nodes : list Mdh.node)
    (i : nat) : option string :=
  bone_index ← node_indices !! (i mod length node_indices)%nat;
  node ← nodes !! bone_index;
  Some (Mdh.name node).

(** The rounded vectors [parse_man] stores for a sample. *)
Definition rounded_translation (round : float → Z → float) (s : Sample.t) : list float :=
  let p := Sample.position s in
  [rf round (Sample.x p) 4; rf round (Sample.y p) 4; rf round (Sample.z p) 4].

Definition rounded_rotation (round : float → Z → float) (s : Sample.t) : list float :=
  let q := Sample.rotation s in
  [rf round (Sample.qx q) 4; rf round (Sample.qy q) 4;
   rf round (Sample.qz q) 4; rf round (Sample.qw q) 4].

(** ** Clip grouper *)

(** [model.lower().endswith('.asc')].  Strings are byte strings; the test
    reads the last four characters only, and the characters that Python's
    [lower] maps to the letters of [.asc] are the ASCII ones. *)
Definition ascii_lower (c : Ascii.ascii) : Ascii.ascii :=
  let n := Ascii.N_of_ascii c in
  if (65 <=? n)%N && (n <=? 90)%N then Ascii.ascii_of_N (n + 32) else c.

Fixpoint lower (s : string) : string :=
  match s with
  | EmptyString => EmptyString
  | String c s' => String (ascii_lower c) (lower s')
  end.

Definition endswith (s suffix : string) : bool :=
  let n := String.length s in
  let m := String.length suffix in
  (m <=? n)%nat && String.eqb (String.substring (n - m) m s) suffix.

Definition is_asc (model : string) : bool := endswith (lower model) ".asc".

(** [anis_by_asc[key].append(ani)] on a [defaultdict(list)], whose items
    are kept in insertion order. *)
Fixpoint group_append (key : string) (ani : Ani.t)
    (anis_by_asc : list (string * list Ani.t)) : list (string * list Ani.t) :=
  match anis_by_asc with
  | [] => [(key, [ani])]
  | (k, anis) :: rest =>
      if decide (k = key) then (k, anis ++ [ani]) :: rest
      else (k, anis) :: group_append key ani rest
  end.

(** The first loop of [parse_msb], over [model_script.animations]. *)
Definition anis_by_asc (animations : list Ani.t) : list (string * list Ani.t) :=
  foldl (λ anis_by_asc ani,
           if is_asc (Ani.model ani)
           then group_append (Ani.model ani) ani anis_by_asc
           else anis_by_asc)
        [] animations.

(** The second loop of [parse_msb]: [final_anis[asc_name] =
    find_best_anis_combo(asc_name, anis)] for every item, in order. *)
Fixpoint final_anis (anis_by_asc : list (string * list Ani.t))
  : result (list (string * list Ani.t)) :=
  match anis_by_asc with
  | [] => Ok []
  | (asc_name, anis) :: rest =>
      best_combo ← find_best_anis_combo asc_name anis;
      final ← final_anis rest;
      Ok ((asc_name, best_combo) :: final)
  end.

(** The returned dictionary of [parse_msb], as its items. *)
Definition parse_msb (animations : list Ani.t) : result (list (string * list Ani.t)) :=
  final_anis (anis_by_asc animations).

(** ** Reading traces and clip lists *)

(** The documents a trace writes, in order, and the number of bake runs. *)
Definition documents_written (trace : list event) : list (string * json) :=
  omap (λ e, match e with WriteText p d => Some (p, d) | _ => None end) trace.

Definition bake_runs (trace : list event) : nat :=
  length (omap (λ e, match e with RunBlender => Some () | _ => None end) trace).

(** The number of frames the clips of a list have together. *)
Definition total_frames (anis : list Ani.t) : Z :=
  foldr (λ a n, span a + 1 + n) 0 anis.

(** The check of the range analyzer on a list taken in the given order. *)
Definition abuts_in_order (ranges : list Ani.t) : bool :=
  match ranges with
  | [] => true
  | r0 :: rest => check_adjacent r0 rest
  end.

(** A clip whose range is not empty, and two clips of which the first
    ends before the second starts. *)
Definition well_formed (a : Ani.t) : Prop := Ani.first_frame a ≤ Ani.last_frame a.

Definition separated (a b : Ani.t) : Prop := Ani.last_frame a < Ani.first_frame b.

(** ** Example inputs *)

Module Example.

(** An executable rounding to run the examples with: scale by
    [10^ndigits], round to the nearest integer with ties to even, scale
    back.  It agrees with the builtin on the values used below; every
    statement of this development holds for an arbitrary [round]. *)
Definition pow10 (n : nat) : float := Nat.iter n (λ p, PrimFloat.mul p 10%float) 1%float.

Definition nearest_integer (y : float) : float :=
  let two52 := 4503599627370496%float in
  if PrimFloat.ltb (PrimFloat.abs y) two52 then
    if PrimFloat.leb 0%float y
    then PrimFloat.sub (PrimFloat.add y two52) two52
    else PrimFloat.add (PrimFloat.sub y two52) two52
  else y.

Definition round_scaled (x : float) (ndigits : Z) : float :=
  let p := pow10 (Z.to_nat (Z.abs ndigits)) in
  if 0 <=? ndigits
  then PrimFloat.div (nearest_integer (PrimFloat.mul x p)) p
  else PrimFloat.mul (nearest_integer (PrimFloat.div x p)) p.

(** Three clips that tile frames 0..29, given out of order. *)
Definition clip (name : string) (first_frame last_frame : Z) : Ani.t :=
  Ani.Make name "HUM_RUN.ASC" first_frame last_frame 25%float 0%float.

Definition tiling_clips : list Ani.t :=
  [clip "T_RUN_3" 20 29; clip "T_RUN_1" 0 9; clip "T_RUN_2" 10 19].

(** Two overlapping clips of equal span; only the second plays unmodified. *)
Definition overlapping_clips : list Ani.t :=
  [Ani.Make "T_RUN_FAST" "HUM_RUN.ASC" 0 9 50%float 0%float; clip "T_RUN_B" 5 14].

(** Two clips with a gap between them. *)
Definition gapped_clips : list Ani.t := [clip "T_RUN_1" 0 9; clip "T_RUN_2" 15 24].

(** A skeleton of two bones and two sample streams over it. *)
Definition skeleton : Mdh.t := Mdh.Make 77 [Mdh.Node "BIP01"; Mdh.Node "BIP01 HEAD"].

Definition sample (px py pz qx qy qz qw : float) : Sample.t :=
  Sample.Make (Sample.Vec3 px py pz) (Sample.Quat qx qy qz qw).

Definition clip_a : ModelAnimation.t :=
  ModelAnimation.Make 77 2 25%float 25%float 1 [0%nat; 1%nat]
    [sample 1 2 3 0 0 0 1; sample 4 5 6 0 0 1 0;
     sample 7 8 9 0 1 0 0; sample 10 11 12 1 0 0 0].

Definition clip_b : ModelAnimation.t :=
  ModelAnimation.Make 77 1 10%float 25%float 2 [0%nat; 1%nat]
    [sample 21 22 23 0 0 0 1; sample 24 25 26 0 0 1 0].

(** A stream bound to another skeleton. *)
Definition clip_other : ModelAnimation.t :=
  ModelAnimation.Make 78 1 25%float 25%float 1 [0%nat] [sample 1 2 3 0 0 0 1].

(** The decode of a stream over [skeleton] with [round_scaled]. *)
Definition decode (m : ModelAnimation.t) : Data.t (list float) :=
  match parse_man round_scaled m skeleton with
  | Ok (Some d) => d
  | _ => Data.Make 0 0 0%float 0%float 0 ∅ ∅
  end.

(** A stream with the skeleton's checksum whose cycle names a bone index
    the skeleton does not have. *)
Definition clip_out_of_range : ModelAnimation.t :=
  ModelAnimation.Make 77 1 25%float 25%float 1 [0%nat; 5%nat]
    [sample 1 2 3 0 0 0 1; sample 4 5 6 0 0 1 0].

Definition file_a : ManFile.t := ManFile.Make "ANIMS/T_RUN_1.MAN" "T_RUN_1" clip_a.
Definition file_b : ManFile.t := ManFile.Make "ANIMS/T_RUN_2.MAN" "T_RUN_2" clip_b.
Definition file_other : ManFile.t := ManFile.Make "ANIMS/T_JUMP.MAN" "T_JUMP" clip_other.

(** A source track whose files belong to two different skeletons. *)
Definition mixed_clips : list Ani.t := [clip "T_RUN_1" 0 9; clip "T_JUMP" 10 19].

Definition man_file_path_list : list ManFile.t := [file_a; file_b; file_other].

(** A stream whose cycle visits the bones in the other order, so that it
    holds no (bone, track, key) that [clip_a] holds. *)
Definition clip_swapped : ModelAnimation.t :=
  ModelAnimation.Make 77 1 25%float 25%float 1 [1%nat; 0%nat]
    [sample 31 32 33 0 0 0 1; sample 34 35 36 0 0 1 0].

Definition file_out_of_range : ManFile.t :=
  ManFile.Make "ANIMS/T_FALL.MAN" "T_FALL" clip_out_of_range.

(** The clips of the tiling in script order. *)
Definition ordered_clips : list Ani.t :=
  [clip "T_RUN_1" 0 9; clip "T_RUN_2" 10 19; clip "T_RUN_3" 20 29].

(** Two clips that tile frames 0..19 and a third one inside that range. *)
Definition redundant_clips : list Ani.t :=
  [clip "T_RUN_1" 0 9; clip "T_RUN_2" 10 19; clip "T_RUN_MID" 5 14].

(** Three files with the skeleton's checksum, the last of which does not
    decode. *)
Definition all_man_files : list ManFile.t := [file_a; file_b; file_out_of_range].

End Example.

(** * Properties *)

(** ** The stable sort *)

Section SortedFacts.
Context {A : Type} (key : A → Z).

Lemma insert_by_perm x l : insert_by key x l ≡ₚ x :: l.
Proof.
  induction l as [|y l IH]; simpl; [done|].
  destruct (key x <=? key y); [done|].
  rewrite IH. apply Permutation_swap.
Qed.

Lemma py_sorted_perm l : py_sorted key l ≡ₚ l.
Proof.
  induction l as [|x l IH]; simpl; [done|].
  rewrite insert_by_perm. by f_equiv.
Qed.

Lemma py_sorted_length l : length (py_sorted key l) = length l.
Proof. by rewrite py_sorted_perm. Qed.

Lemma insert_by_sorted x l :
  StronglySorted (λ a b, key a ≤ key b) l →
  StronglySorted (λ a b, key a ≤ key b) (insert_by key x l).
Proof.
  induction 1 as [|y l Hl IH Hy]; simpl.
  - repeat constructor.
  - destruct (Z.leb_spec (key x) (key y)) as [Hxy|Hxy].
    + constructor; [by constructor|].
      constructor; [done|].
      eapply Forall_impl; [exact Hy|]. simpl. lia.
    + constructor; [done|].
      rewrite insert_by_perm. constructor; [lia|done].
Qed.

Lemma py_sorted_sorted l :
  StronglySorted (λ a b, key a ≤ key b) (py_sorted key l).
Proof.
  induction l as [|x l IH]; simpl; [constructor|].
  by apply insert_by_sorted.
Qed.

(** Stability: elements with equal keys keep their relative order. *)
Lemma insert_by_stable k x l :
  filter (λ a, key a = k) (insert_by key x l) = filter (λ a, key a = k) (x :: l).
Proof.
  induction l as [|y l IH]; simpl; [done|].
  destruct (Z.leb_spec (key x) (key y)) as [Hxy|Hxy]; [done|].
  rewrite !filter_cons in *.
  repeat case_decide; simplify_eq; try lia; by rewrite IH.
Qed.

Lemma py_sorted_stable k l :
  filter (λ a, key a = k) (py_sorted key l) = filter (λ a, key a = k) l.
Proof.
  induction l as [|x l IH]; simpl; [done|].
  rewrite insert_by_stable, !filter_cons, IH. done.
Qed.

Lemma py_sorted_singleton x : py_sorted key [x] = [x].
Proof. done. Qed.
End SortedFacts.

(** ** Range analyzer *)

Lemma check_adjacent_spec prev rest :
  check_adjacent prev rest = true ↔
  ∀ (i : nat) p c,
    (prev :: rest) !! i = Some p → (prev :: rest) !! S i = Some c →
    Ani.first_frame c = Ani.last_frame p + 1.
Proof.
  revert prev. induction rest as [|curr rest IH]; intros prev; simpl.
  - split; [|done]. intros _ i p c _ Hc. by destruct i.
  - destruct (Z.leb_spec (Ani.first_frame curr) (Ani.last_frame prev)) as [Hle|Hlt].
    { split; [done|]. intros H. specialize (H 0%nat prev curr eq_refl eq_refl). lia. }
    destruct (Z.eqb_spec (Ani.first_frame curr) (Ani.last_frame prev + 1)) as [Heq|Hne]; simpl.
    + rewrite IH. split.
      * intros H [|i] p c Hp Hc; simpl in *; [by simplify_eq|]. by eapply H.
      * intros H i p c Hp Hc. by apply (H (S i)).
    + split; [done|]. intros H. by specialize (H 0%nat prev curr eq_refl eq_refl).
Qed.

(** C7: the range analyzer accepts a collection of clips exactly when, in
    the list sorted (stably) by first frame, every adjacent pair
    [(prev, curr)] has [curr.first_frame = prev.last_frame + 1]; a single
    clip is always accepted.  The function is pure: it returns a boolean
    and leaves its argument as it was. *)
Theorem range_analyzer_exact_tiling (ranges : list Ani.t) :
  let sorted := py_sorted Ani.first_frame ranges in
  sorted ≡ₚ ranges ∧
  StronglySorted (λ a b, Ani.first_frame a ≤ Ani.first_frame b) sorted ∧
  (is_continuous_and_non_overlapping ranges = true ↔
   ∀ (i : nat) prev curr,
     sorted !! i = Some prev → sorted !! S i = Some curr →
     Ani.first_frame curr = Ani.last_frame prev + 1) ∧
  (∀ a, is_continuous_and_non_overlapping [a] = true).
Proof.
  intros sorted. split_and!.
  - apply py_sorted_perm.
  - apply py_sorted_sorted.
  - unfold is_continuous_and_non_overlapping. fold sorted.
    destruct sorted as [|r0 rest].
    + split; [|done]. intros _ i p c Hp. by destruct i.
    + apply check_adjacent_spec.
  - done.
Qed.

(** ** Combination selector: the search *)

Lemma elem_of_combinations {A : Type} (l : list A) (r : nat) (c : list A) :
  c ∈ combinations l r ↔ c `sublist_of` l ∧ length c = r.
Proof.
  revert r c. induction l as [|x l IH]; intros [|r] c; simpl.
  - rewrite list_elem_of_singleton, sublist_nil_r. split; [by intros ->|by intros [-> _]].
  - rewrite elem_of_nil, sublist_nil_r. split; [done|]. by intros [-> ?].
  - rewrite list_elem_of_singleton. split.
    + intros ->. split; [apply sublist_nil_l|done].
    + intros [_ Hc]. by apply nil_length_inv.
  - rewrite elem_of_app, list_elem_of_fmap, sublist_cons_r. setoid_rewrite IH.
    split.
    + intros [(c' & -> & Hc' & <-)|[Hc <-]]; split; eauto.
    + intros [[Hc|(c' & -> & Hc')] Hlen]; [by right|].
      left. exists c'. simpl in Hlen. split_and!; [done|done|lia].
Qed.

Lemma elem_of_enumeration (anis c : list Ani.t) :
  c ∈ enumeration anis ↔ c `sublist_of` anis ∧ (2 ≤ length c)%nat.
Proof.
  unfold enumeration. rewrite list_elem_of_bind.
  setoid_rewrite elem_of_combinations. setoid_rewrite elem_of_seq.
  split.
  - intros (r & [Hc <-] & Hr). split; [done|lia].
  - intros [Hc Hlen]. exists (length c). split_and!; [done..|].
    apply sublist_length in Hc. lia.
Qed.

Lemma exact_cover_search_enumeration anis :
  exact_cover_search anis = foldl consider [] (enumeration anis).
Proof.
  unfold exact_cover_search, enumeration.
  generalize (seq 2 (length anis - 1)) ([] : list Ani.t).
  intros rs. induction rs as [|r rs IH]; intros best; simpl; [done|].
  by rewrite foldl_app, IH.
Qed.

(** What a left fold of [consider] leaves: either the initial value, when
    no valid candidate is longer, or the first valid candidate of the
    greatest length. *)
Lemma foldl_consider_spec (cands : list (list Ani.t)) (b : list Ani.t) :
  let r := foldl consider b cands in
  (r = b ∧
   ∀ c, c ∈ cands → is_continuous_and_non_overlapping c = true →
        (length c ≤ length b)%nat) ∨
  (∃ pre post,
     cands = pre ++ r :: post ∧
     is_continuous_and_non_overlapping r = true ∧
     (length b < length r)%nat ∧
     (∀ c, c ∈ pre → is_continuous_and_non_overlapping c = true →
           (length c < length r)%nat) ∧
     (∀ c, c ∈ post → is_continuous_and_non_overlapping c = true →
           (length c ≤ length r)%nat)).
Proof.
  revert b. induction cands as [|c cands IH]; intros b; cbn zeta; simpl.
  { left. split; [done|]. by intros c ?%elem_of_nil. }
  assert (Hstep : consider b c = c ∧ is_continuous_and_non_overlapping c = true ∧
                    (length b < length c)%nat ∨
                  consider b c = b ∧ (is_continuous_and_non_overlapping c = true →
                    (length c ≤ length b)%nat)).
  { unfold consider.
    destruct (is_continuous_and_non_overlapping c); [|by right].
    destruct (Nat.ltb_spec (length b) (length c)); [by left|by right]. }
  destruct Hstep as [(-> & Hc & Hlt)|[-> Hge]].
  - destruct (IH c) as [[Hr Hall]|(pre & post & Hcands & Hv & Hlen & Hpre & Hpost)].
    + right. exists [], cands. rewrite Hr. split_and!; try done.
      by intros ? ?%elem_of_nil.
    + right. exists (c :: pre), post. split_and!; try done.
      * simpl. by f_equal.
      * lia.
      * intros c' [->|Hc']%elem_of_cons Hv'; [done|by apply Hpre].
  - destruct (IH b) as [[Hr Hall]|(pre & post & Hcands & Hv & Hlen & Hpre & Hpost)].
    + left. split; [done|]. intros c' [->|Hc']%elem_of_cons Hv'; [by apply Hge|by apply Hall].
    + right. exists (c :: pre), post. split_and!; try done.
      * simpl. by f_equal.
      * intros c' [->|Hc']%elem_of_cons Hv'; [specialize (Hge Hv'); lia|by apply Hpre].
Qed.

(** C4: when some subset of two or more clips passes the range analyzer,
    the selection kept before the full-range check is the result of the
    search; it is a passing subset of at least two clips, no passing
    subset is larger, and no passing subset visited before it (sizes
    ascending from 2, combinations of each size in input order) has the
    same size. *)
Theorem search_keeps_first_largest (anis : list Ani.t) :
  (∃ c, c `sublist_of` anis ∧ (2 ≤ length c)%nat ∧
        is_continuous_and_non_overlapping c = true) →
  let best := exact_cover_search anis in
  select_candidate anis = Ok best ∧
  best `sublist_of` anis ∧ (2 ≤ length best)%nat ∧
  is_continuous_and_non_overlapping best = true ∧
  (∀ c, c `sublist_of` anis → is_continuous_and_non_overlapping c = true →
        (length c ≤ length best)%nat) ∧
  (∃ pre post,
     enumeration anis = pre ++ best :: post ∧
     ∀ c, c ∈ pre → is_continuous_and_non_overlapping c = true →
          length c ≠ length best).
Proof.
  intros (c0 & Hsub0 & Hlen0 & Hv0) best.
  assert (Hc0 : c0 ∈ enumeration anis) by by apply elem_of_enumeration.
  pose proof (foldl_consider_spec (enumeration anis) []) as Hspec.
  rewrite <-exact_cover_search_enumeration in Hspec. simpl in Hspec.
  assert (Hb : exact_cover_search anis = best) by done.
  rewrite Hb in Hspec. clearbody best.
  destruct Hspec as [[_ Hall]|(pre & post & Henum & Hv & Hlen & Hpre & Hpost)].
  { specialize (Hall c0 Hc0 Hv0). simpl in Hall. lia. }
  assert (Hbest : best ∈ enumeration anis).
  { rewrite Henum. apply elem_of_app. right. apply list_elem_of_here. }
  apply elem_of_enumeration in Hbest as [Hbsub Hblen].
  split_and!; try done.
  - unfold select_candidate. rewrite Hb. destruct best; [simpl in Hblen; lia|done].
  - intros c Hc Hv'. destruct (decide (2 ≤ length c)%nat) as [Hc2|]; [|lia].
    assert (Hin : c ∈ enumeration anis) by by apply elem_of_enumeration.
    rewrite Henum in Hin.
    apply elem_of_app in Hin as [Hin|[->|Hin]%elem_of_cons]; [|done|by apply Hpost].
    specialize (Hpre c Hin Hv'). lia.
  - exists pre, post. split; [done|]. intros c Hin Hv'.
    specialize (Hpre c Hin Hv'). lia.
Qed.

(** ** Combination selector: the fallback and the full-range check *)

Lemma foldl_max_spec (l : list Z) (x : Z) :
  let m := foldl Z.max x l in
  m ∈ x :: l ∧ ∀ y, y ∈ x :: l → y ≤ m.
Proof.
  revert x. induction l as [|z l IH]; intros x; simpl.
  { split; [apply list_elem_of_here|]. intros y ->%list_elem_of_singleton. lia. }
  destruct (IH (Z.max x z)) as [Hin Hle]. split.
  - apply elem_of_cons in Hin as [Hm|Hin]; [|by do 2 apply list_elem_of_further].
    rewrite Hm. destruct (Z.max_spec x z) as [[_ ->]|[_ ->]];
      [apply list_elem_of_further|]; apply list_elem_of_here.
  - intros y Hy.
    assert (Z.max x z ≤ foldl Z.max (Z.max x z) l) by apply Hle, list_elem_of_here.
    apply elem_of_cons in Hy as [->|[->|Hy]%elem_of_cons]; [lia|lia|].
    apply Hle. by apply list_elem_of_further.
Qed.

Lemma foldl_min_spec (l : list Z) (x : Z) :
  let m := foldl Z.min x l in
  m ∈ x :: l ∧ ∀ y, y ∈ x :: l → m ≤ y.
Proof.
  revert x. induction l as [|z l IH]; intros x; simpl.
  { split; [apply list_elem_of_here|]. intros y ->%list_elem_of_singleton. lia. }
  destruct (IH (Z.min x z)) as [Hin Hle]. split.
  - apply elem_of_cons in Hin as [Hm|Hin]; [|by do 2 apply list_elem_of_further].
    rewrite Hm. destruct (Z.min_spec x z) as [[_ ->]|[_ ->]];
      [|apply list_elem_of_further]; apply list_elem_of_here.
  - intros y Hy.
    assert (foldl Z.min (Z.min x z) l ≤ Z.min x z) by apply Hle, list_elem_of_here.
    apply elem_of_cons in Hy as [->|[->|Hy]%elem_of_cons]; [lia|lia|].
    apply Hle. by apply list_elem_of_further.
Qed.

Lemma py_max_spec (l : list Z) :
  l ≠ [] → ∃ m, py_max l = Ok m ∧ m ∈ l ∧ ∀ y, y ∈ l → y ≤ m.
Proof.
  destruct l as [|x l]; [done|]. intros _. exists (foldl Z.max x l).
  split; [done|]. apply foldl_max_spec.
Qed.

Lemma py_min_spec (l : list Z) :
  l ≠ [] → ∃ m, py_min l = Ok m ∧ m ∈ l ∧ ∀ y, y ∈ l → m ≤ y.
Proof.
  destruct l as [|x l]; [done|]. intros _. exists (foldl Z.min x l).
  split; [done|]. apply foldl_min_spec.
Qed.

(** The fallback on a non-empty input: one clip of greatest span, chosen
    among the clips of that span by the playback filter. *)
Lemma largest_span_spec (anis : list Ani.t) :
  anis ≠ [] →
  ∃ a, largest_span anis = Ok [a] ∧ a ∈ anis ∧
       (∀ b, b ∈ anis → span b ≤ span a) ∧
       let tied := filter (λ b, span b = span a) anis in
       match filter (λ b, not_sped_up b) tied with
       | a' :: _ => a = a'
       | [] => head tied = Some a
       end.
Proof.
  intros Hne. unfold largest_span.
  destruct (py_max_spec (span <$> anis)) as (m & -> & Hm & Hmax).
  { by destruct anis. }
  simpl. apply list_elem_of_fmap in Hm as (am & -> & Ham).
  assert (Hle : ∀ b, b ∈ anis → span b ≤ span am).
  { intros b Hb. apply Hmax, list_elem_of_fmap. eauto. }
  set (tied := filter (λ a, span a = span am) anis).
  assert (Hamt : am ∈ tied) by by apply list_elem_of_filter.
  assert (Htied : ∀ a, a ∈ tied → a ∈ anis ∧ span a = span am).
  { intros a [? ?]%list_elem_of_filter. done. }
  destruct (Nat.ltb_spec 1 (length tied)) as [Hlen|Hlen].
  - destruct (filter (λ a, not_sped_up a) tied) as [|a0 rest] eqn:Hfilter.
    + destruct tied as [|b0 tied'] eqn:Htd; [by apply elem_of_nil in Hamt|].
      destruct (Htied b0) as [Hb0 Hsp]; [apply list_elem_of_here|].
      exists b0. split_and!; [done|done|by rewrite Hsp|].
      simpl. rewrite Hsp. fold tied. rewrite Htd, Hfilter. done.
    + assert (Ha0 : a0 ∈ tied).
      { eapply (list_elem_of_filter (λ a, not_sped_up a)). rewrite Hfilter.
        apply list_elem_of_here. }
      destruct (Htied a0 Ha0) as [Ha0' Hsp].
      exists a0. split_and!; [done|done|by rewrite Hsp|].
      simpl. rewrite Hsp. fold tied. by rewrite Hfilter.
  - destruct tied as [|b0 [|b1 tied']] eqn:Htd; simpl in Hlen; [|clear Hlen|lia].
    { by apply elem_of_nil in Hamt. }
    destruct (Htied b0) as [Hb0 Hsp]; [apply list_elem_of_here|].
    exists b0. split_and!; [done|done|by rewrite Hsp|].
    simpl. rewrite Hsp. fold tied. rewrite Htd.
    rewrite filter_cons. case_decide; done.
Qed.

Lemma exact_cover_search_none (anis : list Ani.t) :
  (∀ c, c `sublist_of` anis → (2 ≤ length c)%nat →
        is_continuous_and_non_overlapping c = false) →
  exact_cover_search anis = [].
Proof.
  intros Hnone. rewrite exact_cover_search_enumeration.
  destruct (foldl_consider_spec (enumeration anis) [])
    as [[Hr _]|(pre & post & Henum & Hv & _)]; [done|].
  assert (Hin : foldl consider [] (enumeration anis) ∈ enumeration anis).
  { rewrite Henum at 2. apply elem_of_app. right. apply list_elem_of_here. }
  apply elem_of_enumeration in Hin as [Hsub Hlen].
  rewrite Hnone in Hv; done.
Qed.

(** C5: when no subset of two or more clips passes the range analyzer,
    the selection kept before the full-range check is the fallback's: it
    is exactly one clip [a], of greatest span; among the clips of that
    span (in input order) it is the first one with [fps == 25.0] and
    [speed == 0], or the first one at all when none has that playback. *)
Theorem fallback_keeps_one_clip (anis : list Ani.t) :
  (2 ≤ length anis)%nat →
  (∀ c, c `sublist_of` anis → (2 ≤ length c)%nat →
        is_continuous_and_non_overlapping c = false) →
  ∃ a, select_candidate anis = Ok [a] ∧
       largest_span anis = Ok [a] ∧
       a ∈ anis ∧
       (∀ b, b ∈ anis → span b ≤ span a) ∧
       let tied := filter (λ b, span b = span a) anis in
       match filter (λ b, not_sped_up b) tied with
       | a' :: _ => a = a'
       | [] => head tied = Some a
       end.
Proof.
  intros Hlen Hnone.
  destruct (largest_span_spec anis) as (a & Hls & Ha & Hmax & Htie).
  { intros ->. simpl in Hlen. lia. }
  exists a. split_and!; try done.
  unfold select_candidate. by rewrite (exact_cover_search_none anis Hnone).
Qed.

Lemma frame_range_inv (anis : list Ani.t) (start stop : Z) :
  frame_range anis = Ok (start, stop) →
  py_min (Ani.first_frame <$> anis) = Ok start ∧
  py_max (Ani.last_frame <$> anis) = Ok stop.
Proof.
  unfold frame_range.
  destruct (py_min _) as [s|]; simpl; [|done].
  destruct (py_max _) as [e|]; simpl; [|done].
  by intros [= -> ->].
Qed.

Lemma select_candidate_total (anis : list Ani.t) :
  anis ≠ [] → ∃ cand, select_candidate anis = Ok cand ∧ cand ≠ [].
Proof.
  intros Hne. unfold select_candidate.
  destruct (exact_cover_search anis) as [|c best]; [|by eexists].
  destruct (largest_span_spec anis Hne) as (a & -> & _). by eexists.
Qed.

Lemma frame_range_total (anis : list Ani.t) :
  anis ≠ [] → ∃ r, frame_range anis = Ok r.
Proof.
  intros Hne. unfold frame_range.
  destruct (py_min_spec (Ani.first_frame <$> anis)) as (start & -> & _); [by destruct anis|].
  destruct (py_max_spec (Ani.last_frame <$> anis)) as (stop & -> & _); [by destruct anis|].
  by eexists.
Qed.

Lemma find_best_anis_combo_range asc_name anis cand r_cand r_full :
  length anis ≠ 1%nat →
  select_candidate anis = Ok cand →
  frame_range cand = Ok r_cand →
  frame_range anis = Ok r_full →
  find_best_anis_combo asc_name anis = Ok (if decide (r_cand = r_full) then cand else anis).
Proof.
  destruct r_cand as [cs ce], r_full as [fs fe]. intros Hlen Hcand Hrc Hrf.
  apply frame_range_inv in Hrc as [Hcs Hce].
  apply frame_range_inv in Hrf as [Hfs Hfe].
  unfold find_best_anis_combo.
  destruct (Nat.eqb_spec (length anis) 1) as [Heq|_]; [done|].
  rewrite Hfs, Hfe, Hcand. simpl. rewrite Hcs, Hce. simpl.
  destruct (Z.eqb_spec cs fs) as [->|]; simpl; [|by rewrite decide_False by congruence].
  destruct (Z.eqb_spec ce fe) as [->|]; simpl; [|by rewrite decide_False by congruence].
  by rewrite decide_True.
Qed.

(** C6: for two or more clips, the search or the fallback produces a
    selection, and both it and the whole input have a frame range
    [(min first_frame, max last_frame)]; when the two ranges differ, the
    complete input is returned.  In particular, for two clips with ranges
    [0,9] and [15,24], whatever their names and playback, both clips are
    returned. *)
Theorem partial_cover_returns_all_clips :
  (∀ (asc_name : string) (anis : list Ani.t),
     (2 ≤ length anis)%nat →
     ∃ cand r_cand r_full,
       select_candidate anis = Ok cand ∧
       frame_range cand = Ok r_cand ∧
       frame_range anis = Ok r_full ∧
       (r_cand ≠ r_full → find_best_anis_combo asc_name anis = Ok anis)) ∧
  (∀ (asc_name n1 m1 n2 m2 : string) (f1 s1 f2 s2 : float),
     let anis := [Ani.Make n1 m1 0 9 f1 s1; Ani.Make n2 m2 15 24 f2 s2] in
     find_best_anis_combo asc_name anis = Ok anis).
Proof.
  split.
  - intros asc_name anis Hlen.
    assert (Hne : anis ≠ []) by (intros ->; simpl in Hlen; lia).
    destruct (select_candidate_total anis Hne) as (cand & Hcand & Hcne).
    destruct (frame_range_total cand Hcne) as [r_cand Hrc].
    destruct (frame_range_total anis Hne) as [r_full Hrf].
    exists cand, r_cand, r_full. split_and!; try done.
    intros Hdiff.
    rewrite (find_best_anis_combo_range asc_name anis cand r_cand r_full)
      by (done || lia).
    by rewrite decide_False.
  - intros asc_name n1 m1 n2 m2 f1 s1 f2 s2 anis. subst anis.
    unfold find_best_anis_combo, select_candidate, largest_span. simpl.
    rewrite !filter_cons, filter_nil. simpl.
    repeat case_decide; try done. simpl.
    rewrite !filter_cons, filter_nil.
    repeat case_decide; done.
Qed.

(** ** Sample decoder *)

Section DictionaryFacts.
Context {V : Type}.

Lemma translation_at_alter_rotation (f : gmap nat V → gmap nat V)
    (frames : gmap string (Data.tracks V)) b0 b i :
  translation_at
    (alter (λ t, Data.Tracks (Data.translation t) (f (Data.rotation t))) b0 frames) b i
  = translation_at frames b i.
Proof.
  unfold translation_at. destruct (decide (b0 = b)) as [->|Hne].
  - rewrite lookup_alter_eq. by destruct (frames !! b).
  - by rewrite lookup_alter_ne.
Qed.

Lemma rotation_at_alter_translation (f : gmap nat V → gmap nat V)
    (frames : gmap string (Data.tracks V)) b0 b i :
  rotation_at
    (alter (λ t, Data.Tracks (f (Data.translation t)) (Data.rotation t)) b0 frames) b i
  = rotation_at frames b i.
Proof.
  unfold rotation_at. destruct (decide (b0 = b)) as [->|Hne].
  - rewrite lookup_alter_eq. by destruct (frames !! b).
  - by rewrite lookup_alter_ne.
Qed.

Lemma ensure_bone_is_Some b0 (frames : gmap string (Data.tracks V)) :
  is_Some (ensure_bone b0 frames !! b0).
Proof.
  unfold ensure_bone. destruct (frames !! b0) eqn:H; [by rewrite H|].
  by rewrite lookup_insert_eq.
Qed.

Lemma translation_at_ensure_bone b0 (frames : gmap string (Data.tracks V)) b i :
  translation_at (ensure_bone b0 frames) b i = translation_at frames b i.
Proof.
  unfold translation_at, ensure_bone. destruct (frames !! b0) eqn:H; [done|].
  destruct (decide (b0 = b)) as [->|Hne].
  - by rewrite lookup_insert_eq, H.
  - by rewrite lookup_insert_ne.
Qed.

Lemma rotation_at_ensure_bone b0 (frames : gmap string (Data.tracks V)) b i :
  rotation_at (ensure_bone b0 frames) b i = rotation_at frames b i.
Proof.
  unfold rotation_at, ensure_bone. destruct (frames !! b0) eqn:H; [done|].
  destruct (decide (b0 = b)) as [->|Hne].
  - by rewrite lookup_insert_eq, H.
  - by rewrite lookup_insert_ne.
Qed.

Lemma translation_at_set b0 k (v : V) (frames : gmap string (Data.tracks V)) b i :
  is_Some (frames !! b0) →
  translation_at (alter (set_translation k v) b0 frames) b i =
  if decide (b0 = b ∧ k = i) then Some v else translation_at frames b i.
Proof.
  intros [t Ht]. unfold translation_at. destruct (decide (b0 = b)) as [->|Hne].
  - rewrite lookup_alter_eq, Ht. simpl.
    destruct (decide (k = i)) as [->|Hki].
    + rewrite lookup_insert_eq. by rewrite decide_True.
    + rewrite lookup_insert_ne by done. rewrite decide_False; [done|]. by intros [_ ?].
  - rewrite lookup_alter_ne by done. rewrite decide_False; [done|]. by intros [? _].
Qed.

Lemma rotation_at_set b0 k (v : V) (frames : gmap string (Data.tracks V)) b i :
  is_Some (frames !! b0) →
  rotation_at (alter (set_rotation k v) b0 frames) b i =
  if decide (b0 = b ∧ k = i) then Some v else rotation_at frames b i.
Proof.
  intros [t Ht]. unfold rotation_at. destruct (decide (b0 = b)) as [->|Hne].
  - rewrite lookup_alter_eq, Ht. simpl.
    destruct (decide (k = i)) as [->|Hki].
    + rewrite lookup_insert_eq. by rewrite decide_True.
    + rewrite lookup_insert_ne by done. rewrite decide_False; [done|]. by intros [_ ?].
  - rewrite lookup_alter_ne by done. rewrite decide_False; [done|]. by intros [? _].
Qed.
End DictionaryFacts.

(** ** Sample decoder *)

Lemma cycle_offset_step (n k : nat) :
  n ≠ 0%nat →
  (if (n <=? k mod n + 1)%nat then 0%nat else (k mod n + 1)%nat) = (S k mod n)%nat.
Proof.
  intros Hn.
  pose proof (Nat.div_mod_eq k n) as Hk.
  pose proof (Nat.mod_upper_bound k n Hn) as Hlt.
  destruct (Nat.leb_spec n (k mod n + 1)) as [Hle|Hgt].
  - apply (Nat.mod_unique _ _ (S (k / n))); [lia|nia].
  - apply (Nat.mod_unique _ _ (k / n)); [lia|nia].
Qed.

Section DecoderFacts.
Variable round : float → Z → float.

Lemma parse_samples_spec node_indices nodes samples (k o : nat) frames :
  let n := length node_indices in
  n ≠ 0%nat →
  (if (n <=? o)%nat then 0%nat else o) = (k mod n)%nat →
  (∀ j, (j < length samples)%nat →
        is_Some (cycled_bone_name node_indices nodes (k + j))) →
  ∃ frames',
    parse_samples round node_indices nodes samples k o frames = Ok frames' ∧
    (∀ j s b,
       samples !! j = Some s →
       cycled_bone_name node_indices nodes (k + j) = Some b →
       translation_at frames' b (k + j) = Some (rounded_translation round s) ∧
       rotation_at frames' b (k + j) = Some (rounded_rotation round s)) ∧
    (∀ b i,
       (∀ j, (j < length samples)%nat → i = (k + j)%nat →
             cycled_bone_name node_indices nodes i ≠ Some b) →
       translation_at frames' b i = translation_at frames b i ∧
       rotation_at frames' b i = rotation_at frames b i).
Proof.
  intros n Hn. revert k o frames.
  induction samples as [|s samples IH]; intros k o frames Hoff Hbones.
  { exists frames. split_and!; [done| |done]. intros j s b Hs. by rewrite lookup_nil in Hs. }
  destruct (Hbones 0%nat) as [b0 Hb0]; [simpl; lia|].
  rewrite Nat.add_0_r in Hb0.
  assert (Hb0' := Hb0). unfold cycled_bone_name in Hb0'. fold n in Hb0'.
  destruct (node_indices !! (k mod n)%nat) as [bone_index|] eqn:Hidx; [|done].
  simpl in Hb0'.
  destruct (nodes !! bone_index) as [node|] eqn:Hnode; [|done].
  simpl in Hb0'. injection Hb0' as Hname.
  simpl. fold n. rewrite Hoff. unfold py_index. rewrite Hidx. simpl.
  rewrite Hnode. simpl. rewrite Hname.
  set (frames1 := ensure_bone b0 frames).
  set (frames2 := alter (set_translation k _) b0 frames1).
  set (frames3 := alter (set_rotation k _) b0 frames2).
  assert (H1 : is_Some (frames1 !! b0)) by apply ensure_bone_is_Some.
  assert (H2 : is_Some (frames2 !! b0)).
  { unfold frames2. rewrite lookup_alter_eq. destruct H1 as [? ->]. by eexists. }
  destruct (IH (S k) (k mod n + 1)%nat frames3) as (frames' & Hrun & Hwritten & Hkept).
  { by apply cycle_offset_step. }
  { intros j Hj. replace (S k + j)%nat with (k + S j)%nat by lia.
    apply Hbones. simpl. lia. }
  exists frames'. split_and!; [done| |].
  - intros [|j] s' b Hs' Hb.
    + simpl in Hs'. injection Hs' as <-. rewrite Nat.add_0_r in *.
      rewrite Hb0 in Hb. injection Hb as <-.
      destruct (Hkept b0 k) as [-> ->]; [intros j Hj; lia|].
      unfold frames3. split.
      * unfold set_rotation. rewrite translation_at_alter_rotation.
        unfold frames2. rewrite translation_at_set by done.
        by rewrite decide_True.
      * rewrite rotation_at_set by done. by rewrite decide_True.
    + simpl in Hs'. replace (k + S j)%nat with (S k + j)%nat in * by lia.
      by apply Hwritten.
  - intros b i Hfree.
    destruct (Hkept b i) as [-> ->].
    { intros j Hj ->. apply (Hfree (S j)); simpl; lia. }
    assert (Hnot : ¬ (b0 = b ∧ k = i)).
    { intros [<- <-]. apply (Hfree 0%nat); [simpl; lia|lia|done]. }
    unfold frames3. split.
    + unfold set_rotation. rewrite translation_at_alter_rotation.
      unfold frames2. rewrite translation_at_set by done.
      rewrite decide_False by done. apply translation_at_ensure_bone.
    + rewrite rotation_at_set by done. rewrite decide_False by done.
      unfold frames2, set_translation. rewrite rotation_at_alter_translation.
      apply rotation_at_ensure_bone.
Qed.
End DecoderFacts.

(** A matching checksum and a non-empty cycle do not suffice for the
    decoder to return: the stream [clip_out_of_range] has both, yet
    decoding it raises [IndexError] at its second sample, whose cycled
    index is no bone of the skeleton, so none of its samples is assigned
    to any bone. *)
Lemma decode_raises_on_unknown_bone_index :
  ModelAnimation.checksum Example.clip_out_of_range = Mdh.checksum Example.skeleton ∧
  ModelAnimation.node_indices Example.clip_out_of_range ≠ [] ∧
  parse_man Example.round_scaled Example.clip_out_of_range Example.skeleton
  = Raise IndexError ∧
  ¬ ∃ d, parse_man Example.round_scaled Example.clip_out_of_range Example.skeleton
         = Ok (Some d).
Proof.
  split_and!; [reflexivity|discriminate|vm_compute; reflexivity|].
  intros [d Hd]. vm_compute in Hd. discriminate Hd.
Qed.

(** C8: for a stream whose checksum is the skeleton's, whose bone-index
    cycle is not empty and whose cycled indices name bones of the skeleton,
    the decoder returns a structure in which every sample [i] is stored
    under the bone [nodes[node_indices[i mod len(node_indices)]].name], at
    key [i] itself, as the vectors of its position and of its rotation
    [(x, y, z, w)] with every component passed through [rf(., 4)]; and the
    structure holds nothing else. *)
Theorem decode_assigns_cycled_bone (round : float → Z → float)
    (man : ModelAnimation.t) (mdh : Mdh.t) :
  ModelAnimation.checksum man = Mdh.checksum mdh →
  ModelAnimation.node_indices man ≠ [] →
  (∀ i, (i < length (ModelAnimation.samples man))%nat →
        is_Some (cycled_bone_name (ModelAnimation.node_indices man) (Mdh.nodes mdh) i)) →
  ∃ d,
    parse_man round man mdh = Ok (Some d) ∧
    (∀ i s,
       ModelAnimation.samples man !! i = Some s →
       ∃ b,
         cycled_bone_name (ModelAnimation.node_indices man) (Mdh.nodes mdh) i = Some b ∧
         translation_at (Data.frames d) b i = Some (rounded_translation round s) ∧
         rotation_at (Data.frames d) b i = Some (rounded_rotation round s)) ∧
    (∀ b i,
       is_Some (translation_at (Data.frames d) b i) ∨
       is_Some (rotation_at (Data.frames d) b i) →
       (i < length (ModelAnimation.samples man))%nat ∧
       cycled_bone_name (ModelAnimation.node_indices man) (Mdh.nodes mdh) i = Some b).
Proof.
  intros Hsum Hcycle Hbones. unfold parse_man.
  rewrite Hsum, Z.eqb_refl. simpl.
  destruct (parse_samples_spec round (ModelAnimation.node_indices man) (Mdh.nodes mdh)
              (ModelAnimation.samples man) 0 0 ∅)
    as (frames' & -> & Hwritten & Hkept).
  { by destruct (ModelAnimation.node_indices man). }
  { rewrite Nat.Div0.mod_0_l. by destruct (_ <=? _)%nat. }
  { done. }
  simpl. eexists. split; [done|]. simpl. split.
  - intros i s Hs.
    destruct (Hbones i) as [b Hb]; [by eapply lookup_lt_Some|].
    exists b. split; [done|]. by apply (Hwritten i s b).
  - intros b i Hsome.
    destruct (decide ((i < length (ModelAnimation.samples man))%nat ∧
                      cycled_bone_name (ModelAnimation.node_indices man)
                        (Mdh.nodes mdh) i = Some b)) as [|Hnot]; [done|].
    destruct (Hkept b i) as [Ht Hr].
    { intros j Hj -> Hb. apply Hnot. done. }
    rewrite Ht, Hr in Hsome. unfold translation_at, rotation_at in Hsome.
    rewrite lookup_empty in Hsome. simpl in Hsome.
    destruct Hsome as [[? ?]|[? ?]]; done.
Qed.

(** ** Checksum validation *)

Lemma mdh_by_checksum_lookup (mdh_files : list Mdh.t) (c : Z) (mdh : Mdh.t) :
  mdh_by_checksum mdh_files !! c = Some mdh → Mdh.checksum mdh = c.
Proof.
  unfold mdh_by_checksum.
  assert (Hgen : ∀ index : gmap Z Mdh.t,
    (∀ c mdh, index !! c = Some mdh → Mdh.checksum mdh = c) →
    foldl (λ index mdh_dict, <[Mdh.checksum mdh_dict := mdh_dict]> index) index mdh_files
      !! c = Some mdh →
    Mdh.checksum mdh = c).
  { induction mdh_files as [|m ms IH]; intros index Hindex; simpl; [by apply Hindex|].
    apply IH. intros c' mdh' Hlook.
    destruct (decide (Mdh.checksum m = c')) as [<-|Hne].
    - rewrite lookup_insert_eq in Hlook. by injection Hlook as <-.
    - rewrite lookup_insert_ne in Hlook by done. by apply Hindex. }
  apply Hgen. intros c' mdh'. by rewrite lookup_empty.
Qed.

Lemma single_checksum (model_animations : list ModelAnimation.t) (m m' : ModelAnimation.t) :
  size (list_to_set (ModelAnimation.checksum <$> model_animations) : gset Z) = 1%nat →
  m ∈ model_animations → m' ∈ model_animations →
  ModelAnimation.checksum m = ModelAnimation.checksum m'.
Proof.
  intros Hsize Hm Hm'.
  apply size_1_elem_of in Hsize as [c Hc].
  assert (Hin : ∀ a, a ∈ model_animations → ModelAnimation.checksum a = c).
  { intros a Ha. apply (elem_of_singleton (C := gset Z)). rewrite <-Hc.
    apply elem_of_list_to_set, list_elem_of_fmap. eauto. }
  by rewrite (Hin m), (Hin m').
Qed.

Section MergeSafety.
Variable round : float → Z → float.

Lemma parse_samples_raises node_indices nodes samples k o frames e :
  parse_samples round node_indices nodes samples k o frames = Raise e → e = IndexError.
Proof.
  revert k o frames. induction samples as [|s samples IH]; intros k o frames; simpl; [done|].
  unfold py_index.
  destruct (node_indices !! _) as [bone_index|]; simpl; [|congruence].
  destruct (nodes !! bone_index) as [node|]; simpl; [|congruence].
  apply IH.
Qed.

Lemma parse_man_raises man mdh e :
  parse_man round man mdh = Raise e → e = IndexError.
Proof.
  unfold parse_man. destruct (negb _); [done|].
  destruct (parse_samples _ _ _ _ _ _ _) as [frames|e'] eqn:Hrun; simpl; [done|].
  intros [= <-]. by eapply parse_samples_raises.
Qed.

Lemma parse_man_checked man mdh :
  ModelAnimation.checksum man = Mdh.checksum mdh →
  parse_man round man mdh ≠ Ok None.
Proof.
  intros Hsum. unfold parse_man. rewrite Hsum, Z.eqb_refl. simpl.
  by destruct (parse_samples _ _ _ _ _ _ _).
Qed.

Lemma merge_loop_no_type_error mdh model_animations merged_frames man_data :
  (∀ m, m ∈ model_animations → ModelAnimation.checksum m = Mdh.checksum mdh) →
  merge_loop round mdh model_animations merged_frames man_data ≠ Raise TypeError.
Proof.
  revert merged_frames man_data.
  induction model_animations as [|m ms IH]; intros merged_frames man_data Hsum; simpl; [done|].
  destruct (parse_man round m mdh) as [[d|]|e] eqn:Hparse; simpl.
  - apply IH. intros m' Hm'. by apply Hsum, list_elem_of_further.
  - by apply parse_man_checked in Hparse; [|apply Hsum, list_elem_of_here].
  - apply parse_man_raises in Hparse as ->. done.
Qed.

(** C10: once the validation of [convert_anis] has passed (the loaded
    animations have exactly one checksum, and the index built by [convert]
    has a hierarchy for it), the early [return None] of [parse_man] is
    never taken for any loaded animation, and the merge loop never
    subscripts a [None] decode. *)
Theorem validated_merge_never_decodes_none
    (mdh_files : list Mdh.t) (man_file_paths : list ManFile.t)
    (first_animation : ModelAnimation.t) (mdh : Mdh.t) :
  let model_animations := ManFile.load <$> man_file_paths in
  size (list_to_set (ModelAnimation.checksum <$> model_animations) : gset Z) = 1%nat →
  model_animations !! 0%nat = Some first_animation →
  mdh_by_checksum mdh_files !! ModelAnimation.checksum first_animation = Some mdh →
  (∀ m, m ∈ model_animations → parse_man round m mdh ≠ Ok None) ∧
  (∀ merged_frames man_data,
     merge_loop round mdh model_animations merged_frames man_data ≠ Raise TypeError).
Proof.
  intros model_animations Hsize Hfirst Hmdh.
  apply mdh_by_checksum_lookup in Hmdh.
  assert (Hsum : ∀ m, m ∈ model_animations →
                      ModelAnimation.checksum m = Mdh.checksum mdh).
  { intros m Hm. rewrite Hmdh. eapply single_checksum; [done|done|].
    by eapply list_elem_of_lookup_2. }
  split.
  - intros m Hm. by apply parse_man_checked, Hsum.
  - intros merged_frames man_data. by apply merge_loop_no_type_error.
Qed.
End MergeSafety.

(** ** Track merger *)

Lemma merge_values_lookup (frame : nat) (values : list float) (track : gmap nat float) i :
  merge_values frame values track !! i =
  if decide (frame = i)
  then match last values with Some v => Some v | None => track !! i end
  else track !! i.
Proof.
  unfold merge_values. revert track.
  induction values as [|v values IH]; intros track; simpl.
  { by case_decide. }
  rewrite IH. case_decide as Hfi; [subst i|by rewrite lookup_insert_ne].
  destruct values as [|v' values]; simpl; [by rewrite lookup_insert_eq|].
  destruct (last (v' :: values)) eqn:Hlast; [done|]. by apply last_None in Hlast.
Qed.

Lemma merge_track_lookup (trackFrames : gmap nat (list float)) (track : gmap nat float) i :
  merge_track trackFrames track !! i =
  match left_by_assignments (trackFrames !! i) with
  | Some v => Some v
  | None => track !! i
  end.
Proof.
  unfold merge_track. revert i.
  apply (map_fold_weak_ind (λ r (m : gmap nat (list float)),
    ∀ i, r !! i = match left_by_assignments (m !! i) with
                  | Some v => Some v | None => track !! i end)).
  { intros i. by rewrite lookup_empty. }
  intros frame values m r Hfresh IH i.
  rewrite merge_values_lookup. case_decide as Hfi.
  - subst i. rewrite lookup_insert_eq. simpl.
    destruct (last values); [done|]. by rewrite IH, Hfresh.
  - rewrite lookup_insert_ne by done. apply IH.
Qed.

Lemma entry_at_lookup {V} (frames : gmap string (Data.tracks V)) b t i :
  entry_at frames b t i =
  tr ← frames !! b;
  match t with
  | Translation => Data.translation tr !! i
  | Rotation => Data.rotation tr !! i
  end.
Proof. by destruct t. Qed.

Lemma entry_at_merge_bone bone (tracks : Data.tracks (list float))
    (merged_frames : gmap string (Data.tracks float)) b t i :
  entry_at (merge_bone bone tracks merged_frames) b t i =
  if decide (bone = b)
  then match left_by_assignments
               (match t with
                | Translation => Data.translation tracks !! i
                | Rotation => Data.rotation tracks !! i
                end) with
       | Some v => Some v
       | None => entry_at merged_frames b t i
       end
  else entry_at merged_frames b t i.
Proof.
  unfold merge_bone. rewrite !entry_at_lookup.
  case_decide as Hb.
  - subst b. rewrite !lookup_alter_eq.
    pose proof (ensure_bone_is_Some bone merged_frames) as [tr Htr].
    rewrite Htr. simpl.
    assert (Hold : ∀ g : Data.tracks float → gmap nat float,
              (tr' ← merged_frames !! bone; g tr' !! i) = g tr !! i ∨
              (merged_frames !! bone = None ∧ tr = empty_tracks)).
    { intros g. unfold ensure_bone in Htr.
      destruct (merged_frames !! bone) as [tr'|] eqn:Hm.
      - left. rewrite Hm in Htr. by injection Htr as ->.
      - right. rewrite lookup_insert_eq in Htr. by injection Htr as <-. }
    destruct t; simpl; rewrite merge_track_lookup.
    + destruct (left_by_assignments _); [done|].
      destruct (Hold Data.translation) as [->|[-> ->]]; done.
    + destruct (left_by_assignments _); [done|].
      destruct (Hold Data.rotation) as [->|[-> ->]]; done.
  - rewrite !lookup_alter_ne by done. unfold ensure_bone.
    destruct (merged_frames !! bone); [done|]. by rewrite lookup_insert_ne.
Qed.

Lemma entry_at_merge_frames (frames : gmap string (Data.tracks (list float)))
    (merged_frames : gmap string (Data.tracks float)) b t i :
  entry_at (merge_frames frames merged_frames) b t i =
  match left_by_assignments (entry_at frames b t i) with
  | Some v => Some v
  | None => entry_at merged_frames b t i
  end.
Proof.
  unfold merge_frames. revert b t i.
  apply (map_fold_weak_ind (λ r (m : gmap string (Data.tracks (list float))),
    ∀ b t i, entry_at r b t i =
             match left_by_assignments (entry_at m b t i) with
             | Some v => Some v | None => entry_at merged_frames b t i end)).
  { intros b t i. rewrite (entry_at_lookup ∅), lookup_empty. done. }
  intros bone tracks m r Hfresh IH b t i.
  rewrite entry_at_merge_bone, (entry_at_lookup (<[bone:=tracks]> m)).
  case_decide as Hb.
  - subst b. rewrite lookup_insert_eq. simpl.
    destruct t; (destruct (left_by_assignments _); [done|]);
      rewrite IH, entry_at_lookup, Hfresh; done.
  - rewrite lookup_insert_ne by done. rewrite <-entry_at_lookup. apply IH.
Qed.

Lemma left_by_assignments_is_Some (values : option (list float)) :
  (∀ v, values = Some v → v ≠ []) →
  is_Some (left_by_assignments values) ↔ is_Some values.
Proof.
  intros Hne. destruct values as [v|]; simpl; [|done].
  split; [by eexists|]. intros _.
  destruct (last v) eqn:Hlast; [by eexists|].
  apply last_None in Hlast. by destruct (Hne v).
Qed.

Lemma entry_at_fold_decoded_snoc decoded d merged_frames b t i :
  entry_at (fold_decoded (decoded ++ [d]) merged_frames) b t i =
  match left_by_assignments (entry_at (Data.frames d) b t i) with
  | Some v => Some v
  | None => entry_at (fold_decoded decoded merged_frames) b t i
  end.
Proof.
  unfold fold_decoded. rewrite foldl_app. simpl. apply entry_at_merge_frames.
Qed.

(** The entry of the merged frames at a key comes from the last clip that
    holds the key. *)
Lemma entry_at_fold_decoded_last_holder decoded (k : nat) d merged_frames b t i :
  decoded !! k = Some d →
  (∀ (k' : nat) d', (k < k')%nat → decoded !! k' = Some d' →
                    entry_at (Data.frames d') b t i = None) →
  entry_at (fold_decoded decoded merged_frames) b t i =
  match left_by_assignments (entry_at (Data.frames d) b t i) with
  | Some v => Some v
  | None => entry_at (fold_decoded (take k decoded) merged_frames) b t i
  end.
Proof.
  induction decoded as [|x decoded IH] using rev_ind; intros Hk Hlater.
  { by rewrite lookup_nil in Hk. }
  rewrite entry_at_fold_decoded_snoc.
  destruct (decide (k = length decoded)) as [->|Hne].
  - rewrite list_lookup_middle in Hk by done. injection Hk as ->.
    by rewrite take_app_length.
  - assert (Hlt : (k < length decoded)%nat).
    { apply lookup_lt_Some in Hk. rewrite length_app in Hk. simpl in Hk. lia. }
    rewrite (Hlater (length decoded) x); [|done|by rewrite list_lookup_middle].
    simpl. rewrite lookup_app_l in Hk by done.
    rewrite take_app_le by lia. apply IH; [done|].
    intros k' d' Hk' Hd'. apply (Hlater k'); [done|].
    rewrite lookup_app_l; [done|]. by eapply lookup_lt_Some.
Qed.

Lemma entry_at_fold_decoded_is_Some decoded b t i :
  is_Some (entry_at (fold_decoded decoded ∅) b t i) ↔
  ∃ d, d ∈ decoded ∧ is_Some (left_by_assignments (entry_at (Data.frames d) b t i)).
Proof.
  induction decoded as [|x decoded IH] using rev_ind.
  { simpl. rewrite (entry_at_lookup ∅), lookup_empty. simpl. split.
    - by intros [? ?].
    - by intros (d & ?%elem_of_nil & _). }
  rewrite entry_at_fold_decoded_snoc.
  destruct (left_by_assignments (entry_at (Data.frames x) b t i)) as [v|] eqn:Hx.
  - split; [|by eexists]. intros _. exists x. split.
    + apply elem_of_app. right. apply list_elem_of_here.
    + rewrite Hx. by eexists.
  - rewrite IH. split.
    + intros (d & Hd & Hsome). exists d. split; [|done]. apply elem_of_app. by left.
    + intros (d & [Hd|Hd%list_elem_of_singleton]%elem_of_app & Hsome); [by exists d|].
      subst d. rewrite Hx in Hsome. by destruct Hsome.
Qed.

Section MergeFacts.
Variable round : float → Z → float.

Lemma merge_loop_decoded mdh model_animations decoded merged_frames man_data :
  Forall2 (λ m d, parse_man round m mdh = Ok (Some d)) model_animations decoded →
  merge_loop round mdh model_animations merged_frames man_data =
  Ok (fold_decoded decoded merged_frames,
      match last decoded with Some d => Some d | None => man_data end).
Proof.
  intros Hall. revert merged_frames man_data.
  induction Hall as [|m d ms ds Hm Hall IH]; intros merged_frames man_data; simpl; [done|].
  rewrite Hm. simpl. rewrite IH. do 2 f_equal.
  destruct ds as [|d' ds]; simpl; [done|].
  by destruct (last (d' :: ds)) eqn:Hlast; [|apply last_None in Hlast].
Qed.

(** Every vector stored by the decoder has components. *)
Lemma parse_samples_entries node_indices nodes samples k o frames frames' :
  parse_samples round node_indices nodes samples k o frames = Ok frames' →
  (∀ b t i v, entry_at frames b t i = Some v → v ≠ []) →
  ∀ b t i v, entry_at frames' b t i = Some v → v ≠ [].
Proof.
  revert k o frames. induction samples as [|s samples IH]; intros k o frames; simpl.
  { by intros [= <-]. }
  unfold py_index.
  destruct (node_indices !! _) as [bone_index|]; simpl; [|done].
  destruct (nodes !! bone_index) as [node|]; simpl; [|done].
  intros Hrun Hframes. eapply IH; [exact Hrun|].
  intros b t i v.
  pose proof (ensure_bone_is_Some (V := list float) (Mdh.name node) frames) as H1.
  assert (H2 : is_Some (alter (set_translation k
                 ((λ f, rf round f 4) <$>
                    [Sample.x (Sample.position s); Sample.y (Sample.position s);
                     Sample.z (Sample.position s)]))
                 (Mdh.name node) (ensure_bone (Mdh.name node) frames) !! Mdh.name node)).
  { rewrite lookup_alter_eq. destruct H1 as [? ->]. by eexists. }
  destruct t; simpl.
  - unfold set_rotation at 1. rewrite translation_at_alter_rotation.
    rewrite translation_at_set by done. case_decide; [by intros [= <-]|].
    rewrite translation_at_ensure_bone. apply (Hframes b Translation i).
  - rewrite rotation_at_set by done. case_decide; [by intros [= <-]|].
    unfold set_translation at 1. rewrite rotation_at_alter_translation.
    rewrite rotation_at_ensure_bone. apply (Hframes b Rotation i).
Qed.

Lemma parse_man_entries man mdh d b t i v :
  parse_man round man mdh = Ok (Some d) →
  entry_at (Data.frames d) b t i = Some v → v ≠ [].
Proof.
  unfold parse_man. destruct (negb _); [done|].
  destruct (parse_samples _ _ _ _ _ _ _) as [frames|] eqn:Hrun; simpl; [|done].
  intros [= <-]. simpl. eapply parse_samples_entries; [exact Hrun|].
  intros b' t' i' v'. by rewrite (entry_at_lookup ∅), lookup_empty.
Qed.
End MergeFacts.

(** X22: fold two or more clips that all decode, in order.  When an
    earlier and a later clip both hold an entry at one (bone, track, flat
    sample index) key, and no clip folded after the later one holds that
    key, the merged structure holds at that key what the later clip's
    assignments leave there, the last component of its vector, the same as
    if the later clip had been merged alone: nothing of the earlier clip's
    entry remains.  The keys of the merged structure are the decoded
    clips' own keys: a key is present in the merge exactly when some
    clip's decode holds it, with no clip's first frame added. *)
Theorem later_clip_overwrites_earlier (round : float → Z → float) (mdh : Mdh.t)
    (streams : list ModelAnimation.t) (decoded : list (Data.t (list float)))
    (j k : nat) (earlier later : Data.t (list float)) (later_clip : ModelAnimation.t)
    (b : string) (t : track_name) (i : nat) :
  Forall2 (λ m d, parse_man round m mdh = Ok (Some d)) streams decoded →
  (j < k)%nat →
  decoded !! j = Some earlier →
  decoded !! k = Some later →
  streams !! k = Some later_clip →
  is_Some (entry_at (Data.frames earlier) b t i) →
  is_Some (entry_at (Data.frames later) b t i) →
  (∀ (k' : nat) d', (k < k')%nat → decoded !! k' = Some d' →
                    entry_at (Data.frames d') b t i = None) →
  ∃ merged man_data alone man_data',
    merge_loop round mdh streams ∅ None = Ok (merged, man_data) ∧
    merge_loop round mdh [later_clip] ∅ None = Ok (alone, man_data') ∧
    is_Some (entry_at merged b t i) ∧
    entry_at merged b t i = entry_at alone b t i ∧
    entry_at merged b t i = left_by_assignments (entry_at (Data.frames later) b t i) ∧
    (∀ b' t' i',
       is_Some (entry_at merged b' t' i') ↔
       ∃ d, d ∈ decoded ∧ is_Some (entry_at (Data.frames d) b' t' i')).
Proof.
  intros Hall Hjk Hearlier Hlater Hclip _ Hentry Hlast.
  assert (Hdecode : ∀ d, d ∈ decoded → ∃ m, parse_man round m mdh = Ok (Some d)).
  { intros d [n Hn]%list_elem_of_lookup.
    destruct (Forall2_lookup_r _ _ _ _ _ Hall Hn) as (m & _ & Hm). eauto. }
  assert (Hparse : parse_man round later_clip mdh = Ok (Some later)).
  { destruct (Forall2_lookup_l _ _ _ _ _ Hall Hclip) as (d & Hd & Hm). congruence. }
  assert (Hleft : is_Some (left_by_assignments (entry_at (Data.frames later) b t i))).
  { apply left_by_assignments_is_Some; [|done].
    intros v Hv. by eapply parse_man_entries. }
  destruct Hleft as [v Hv].
  exists (fold_decoded decoded ∅), (last decoded),
         (fold_decoded [later] ∅), (Some later).
  split_and!.
  - rewrite (merge_loop_decoded round mdh streams decoded) by done.
    by destruct (last decoded).
  - by rewrite (merge_loop_decoded round mdh [later_clip] [later])
      by (by constructor).
  - rewrite (entry_at_fold_decoded_last_holder decoded k later) by done.
    rewrite Hv. by eexists.
  - rewrite (entry_at_fold_decoded_last_holder decoded k later) by done.
    rewrite (entry_at_fold_decoded_snoc [] later). by rewrite Hv.
  - rewrite (entry_at_fold_decoded_last_holder decoded k later) by done.
    by rewrite Hv.
  - intros b' t' i'. rewrite entry_at_fold_decoded_is_Some.
    split; intros (d & Hd & Hsome); exists d; (split; [done|]);
      destruct (Hdecode d Hd) as [m Hm];
      (apply left_by_assignments_is_Some in Hsome; [done|]);
      intros v' Hv'; by eapply parse_man_entries.
Qed.

(** X11: merging one stream alone.  The merged header is the stream's,
    under the hierarchy given, and each entry of the merge is the last
    component of the decoded vector at the same (bone, track, key): what
    the assignment loop leaves of it. *)
Lemma single_clip_merge (round : float → Z → float) (man_file : ManFile.t)
    (mdh : Mdh.t) (d : Data.t (list float)) :
  parse_man round (ManFile.load man_file) mdh = Ok (Some d) →
  ∃ merged,
    merge_model_animations round [man_file] mdh
      (ModelAnimation.checksum (ManFile.load man_file)) = Ok (merged, d) ∧
    Data.hierarchy merged = mdh ∧
    Data.checksum (Data.animation merged) = Data.checksum d ∧
    Data.frame_count (Data.animation merged) = Data.frame_count d ∧
    Data.fps (Data.animation merged) = Data.fps d ∧
    Data.fps_source (Data.animation merged) = Data.fps_source d ∧
    Data.layer (Data.animation merged) = Data.layer d ∧
    ∀ b t i,
      entry_at (Data.frames (Data.animation merged)) b t i =
      left_by_assignments (entry_at (Data.frames d) b t i).
Proof.
  intros Hparse. unfold merge_model_animations. cbn -[merge_loop].
  rewrite (merge_loop_decoded round mdh [ManFile.load man_file] [d])
    by (by constructor).
  simpl. eexists. split; [done|]. simpl.
  unfold parse_man in Hparse. destruct (negb _); [done|].
  destruct (parse_samples _ _ _ _ _ _ _); simpl in Hparse; [|done].
  injection Hparse as <-. simpl. split_and!; try done.
  intros b t i. rewrite entry_at_merge_frames.
  destruct (left_by_assignments _); [done|].
  by rewrite (entry_at_lookup ∅), lookup_empty.
Qed.

(** C1, evaluated on the code: merging the single stream [clip_a] gives a
    header equal to the clip's metadata, but under (BIP01, translation, 0),
    where the decode holds the rounded vector of (1, 2, 3), the merge holds
    the single number [round(3, 4)]: the loop [for v in values] assigns the
    components one after the other to the same key. *)
Theorem single_clip_merge_keeps_last_component (round : float → Z → float) :
  ∃ d merged,
    parse_man round Example.clip_a Example.skeleton = Ok (Some d) ∧
    merge_model_animations round [Example.file_a] Example.skeleton 77 = Ok (merged, d) ∧
    (Data.checksum (Data.animation merged), Data.frame_count (Data.animation merged),
     Data.fps (Data.animation merged), Data.fps_source (Data.animation merged),
     Data.layer (Data.animation merged))
    = (ModelAnimation.checksum Example.clip_a, ModelAnimation.frame_count Example.clip_a,
       ModelAnimation.fps Example.clip_a, ModelAnimation.fps_source Example.clip_a,
       ModelAnimation.layer Example.clip_a) ∧
    entry_at (Data.frames d) "BIP01" Translation 0
    = Some [rf round 1 4; rf round 2 4; rf round 3 4] ∧
    entry_at (Data.frames (Data.animation merged)) "BIP01" Translation 0
    = Some (rf round 3 4) ∧
    PyFloat <$> entry_at (Data.frames (Data.animation merged)) "BIP01" Translation 0
    ≠ PyList <$> entry_at (Data.frames d) "BIP01" Translation 0.
Proof.
  eexists _, _. split_and!.
  - vm_compute. reflexivity.
  - vm_compute. reflexivity.
  - reflexivity.
  - vm_compute. reflexivity.
  - vm_compute. reflexivity.
  - vm_compute. discriminate.
Qed.

(** C2, evaluated on the code: for the track loaded from [file_a] and
    [file_b], whose merge succeeds, the one document written is the decode
    of the last stream, [clip_b], alone.  It is not the document of the
    merged structure: it has no hierarchy, and under (BIP01, translation,
    2), where the merge holds an entry that came from [clip_a], it holds
    none.  After the write and the [prepared] line the call raises
    [NameError] on reading [blender_script_file_path]. *)
Theorem written_document_is_last_decode (round : float → Z → float) :
  ∃ d_b merged,
    parse_man round Example.clip_b Example.skeleton = Ok (Some d_b) ∧
    merge_model_animations round [Example.file_a; Example.file_b] Example.skeleton 77
    = Ok (merged, d_b) ∧
    convert_anis round "HUM_RUN.ASC" "HUMANS" Example.gapped_clips
      [Example.file_a; Example.file_b] (mdh_by_checksum [Example.skeleton])
    = ([WriteText "ANIMS/T_RUN_2.MAN.json" (json_of_man_data d_b);
        Print "prepared: ANIMS/T_RUN_2.MAN"], Raise NameError) ∧
    json_of_man_data d_b ≠ json_of_merged merged ∧
    is_Some (entry_at (Data.frames (Data.animation merged)) "BIP01" Translation 2) ∧
    entry_at (Data.frames d_b) "BIP01" Translation 2 = None.
Proof.
  eexists _, _. split_and!.
  - vm_compute. reflexivity.
  - vm_compute. reflexivity.
  - vm_compute. reflexivity.
  - intros Heq.
    apply (f_equal (λ j, match j with
                         | JObject members => members !! "hierarchy"%string
                         | _ => None
                         end)) in Heq.
    vm_compute in Heq. discriminate.
  - vm_compute. by eexists.
  - vm_compute. reflexivity.
Qed.

(** C3, evaluated on the code: fold the validated streams [clip_a] and
    [clip_b] in that order.  Both decodes hold an entry under (BIP01,
    translation, 0).  The merged structure holds there no clip's entry:
    where the later clip, [clip_b], holds the rounded vector of (21, 22,
    23), the merge holds the single number [round(23, 4)], which the loop
    [for v in values] leaves.  With a third validated stream whose cycle
    names a bone index the skeleton does not have, the fold raises
    [IndexError] and there is no merged structure. *)
Theorem colliding_key_keeps_last_component (round : float → Z → float) :
  ∃ d_a d_b merged,
    parse_man round Example.clip_a Example.skeleton = Ok (Some d_a) ∧
    parse_man round Example.clip_b Example.skeleton = Ok (Some d_b) ∧
    merge_model_animations round [Example.file_a; Example.file_b] Example.skeleton 77
    = Ok (merged, d_b) ∧
    entry_at (Data.frames d_a) "BIP01" Translation 0
    = Some [rf round 1 4; rf round 2 4; rf round 3 4] ∧
    entry_at (Data.frames d_b) "BIP01" Translation 0
    = Some [rf round 21 4; rf round 22 4; rf round 23 4] ∧
    entry_at (Data.frames (Data.animation merged)) "BIP01" Translation 0
    = Some (rf round 23 4) ∧
    PyFloat <$> entry_at (Data.frames (Data.animation merged)) "BIP01" Translation 0
    ≠ PyList <$> entry_at (Data.frames d_b) "BIP01" Translation 0 ∧
    size (list_to_set (ModelAnimation.checksum <$> (ManFile.load <$> Example.all_man_files))
            : gset Z) = 1%nat ∧
    is_Some (mdh_by_checksum [Example.skeleton] !! 77) ∧
    merge_model_animations round Example.all_man_files Example.skeleton 77
    = Raise IndexError.
Proof.
  eexists _, _, _. split_and!.
  - vm_compute. reflexivity.
  - vm_compute. reflexivity.
  - vm_compute. reflexivity.
  - vm_compute. reflexivity.
  - vm_compute. reflexivity.
  - vm_compute. reflexivity.
  - vm_compute. discriminate.
  - vm_compute. reflexivity.
  - vm_compute. by eexists.
  - vm_compute. reflexivity.
Qed.

(** ** Source tracks that fail validation *)

Section TrackLoop.
Variable round : float → Z → float.

Lemma convert_anis_abort asc_name mds_name anis man_file_paths mdh_dict :
  let model_animations := ManFile.load <$> man_file_paths in
  size (list_to_set (ModelAnimation.checksum <$> model_animations) : gset Z) ≠ 1%nat ∨
  (∃ first_animation,
     model_animations !! 0%nat = Some first_animation ∧
     mdh_dict !! ModelAnimation.checksum first_animation = None) →
  ∃ line,
    convert_anis round asc_name mds_name anis man_file_paths mdh_dict
    = ([Print line], Ok ()).
Proof.
  intros model_animations Hbad. unfold convert_anis. fold model_animations.
  destruct (Nat.eqb_spec
              (size (list_to_set (ModelAnimation.checksum <$> model_animations) : gset Z)) 1)
    as [Hone|Hmany]; simpl.
  - destruct Hbad as [Hbad|(first_animation & Hfirst & Hmissing)]; [done|].
    unfold py_index. rewrite Hfirst. simpl. rewrite Hmissing. by eexists.
  - by eexists.
Qed.

(** C9: when the streams loaded for a source track do not have exactly one
    checksum, or their checksum has no hierarchy in the index, the
    conversion of that track ends normally after printing one line: it
    raises nothing, writes no document and does not start the bake tool;
    the loop then processes the remaining source tracks, with the effects
    and the outcome they have on their own. *)
Theorem failed_validation_skips_track
    (mds_name : string) (man_file_path_list : list ManFile.t)
    (mdh_dict : gmap Z Mdh.t) (asc_name : string) (anis : list Ani.t)
    (rest : list (string * list Ani.t)) :
  let ani_names : gset string := list_to_set (Ani.name <$> anis) in
  let man_files := filter (λ path, ManFile.stem path ∈ ani_names) man_file_path_list in
  let model_animations := ManFile.load <$> man_files in
  size (list_to_set (ModelAnimation.checksum <$> model_animations) : gset Z) ≠ 1%nat ∨
  (∃ first_animation,
     model_animations !! 0%nat = Some first_animation ∧
     mdh_dict !! ModelAnimation.checksum first_animation = None) →
  ∃ line,
    convert_anis round asc_name mds_name anis man_files mdh_dict = ([Print line], Ok ()) ∧
    convert_tracks round mds_name man_file_path_list mdh_dict ((asc_name, anis) :: rest)
    = (Print line :: (convert_tracks round mds_name man_file_path_list mdh_dict rest).1,
       (convert_tracks round mds_name man_file_path_list mdh_dict rest).2).
Proof.
  intros ani_names man_files model_animations Hbad.
  destruct (convert_anis_abort asc_name mds_name anis man_files mdh_dict Hbad)
    as [line Hline].
  exists line. split; [done|].
  simpl. fold ani_names. fold man_files. rewrite Hline. simpl.
  by destruct (convert_tracks round mds_name man_file_path_list mdh_dict rest).
Qed.
End TrackLoop.

(** ** The theorems at the example inputs *)

Lemma search_keeps_first_largest_example :
  exact_cover_search Example.tiling_clips = Example.tiling_clips ∧
  let best := exact_cover_search Example.tiling_clips in
  select_candidate Example.tiling_clips = Ok best ∧
  best `sublist_of` Example.tiling_clips ∧ (2 ≤ length best)%nat ∧
  is_continuous_and_non_overlapping best = true ∧
  (∀ c, c `sublist_of` Example.tiling_clips →
        is_continuous_and_non_overlapping c = true →
        (length c ≤ length best)%nat) ∧
  (∃ pre post,
     enumeration Example.tiling_clips = pre ++ best :: post ∧
     ∀ c, c ∈ pre → is_continuous_and_non_overlapping c = true →
          length c ≠ length best).
Proof.
  split; [vm_compute; reflexivity|].
  apply (search_keeps_first_largest Example.tiling_clips).
  exists [Example.clip "T_RUN_1" 0 9; Example.clip "T_RUN_2" 10 19].
  split_and!.
  - apply sublist_cons, sublist_skip, sublist_skip, sublist_nil.
  - simpl. lia.
  - vm_compute. reflexivity.
Defined.

Lemma fallback_keeps_one_clip_example :
  select_candidate Example.overlapping_clips = Ok [Example.clip "T_RUN_B" 5 14] ∧
  ∃ a, select_candidate Example.overlapping_clips = Ok [a] ∧
       largest_span Example.overlapping_clips = Ok [a] ∧
       a ∈ Example.overlapping_clips ∧
       (∀ b, b ∈ Example.overlapping_clips → span b ≤ span a) ∧
       let tied := filter (λ b, span b = span a) Example.overlapping_clips in
       match filter (λ b, not_sped_up b) tied with
       | a' :: _ => a = a'
       | [] => head tied = Some a
       end.
Proof.
  split; [vm_compute; reflexivity|].
  apply (fallback_keeps_one_clip Example.overlapping_clips).
  - simpl. lia.
  - intros c Hc Hlen.
    assert (Hin : c ∈ enumeration Example.overlapping_clips)
      by (apply elem_of_enumeration; split; assumption).
    vm_compute in Hin. apply list_elem_of_singleton in Hin. subst c.
    vm_compute. reflexivity.
Defined.

Lemma partial_cover_returns_all_clips_example :
  find_best_anis_combo "HUM_RUN.ASC" Example.gapped_clips = Ok Example.gapped_clips.
Proof.
  destruct (proj1 partial_cover_returns_all_clips "HUM_RUN.ASC"%string Example.gapped_clips)
    as (cand & r_cand & r_full & Hcand & Hrc & Hrf & Hall).
  - simpl. lia.
  - apply Hall.
    vm_compute in Hcand. injection Hcand as <-.
    vm_compute in Hrc. injection Hrc as <-.
    vm_compute in Hrf. injection Hrf as <-.
    intros Heq. discriminate Heq.
Defined.

Lemma decode_assigns_cycled_bone_example :
  ∃ d,
    parse_man Example.round_scaled Example.clip_a Example.skeleton = Ok (Some d) ∧
    (∀ i s,
       ModelAnimation.samples Example.clip_a !! i = Some s →
       ∃ b,
         cycled_bone_name (ModelAnimation.node_indices Example.clip_a)
           (Mdh.nodes Example.skeleton) i = Some b ∧
         translation_at (Data.frames d) b i
         = Some (rounded_translation Example.round_scaled s) ∧
         rotation_at (Data.frames d) b i
         = Some (rounded_rotation Example.round_scaled s)) ∧
    (∀ b i,
       is_Some (translation_at (Data.frames d) b i) ∨
       is_Some (rotation_at (Data.frames d) b i) →
       (i < length (ModelAnimation.samples Example.clip_a))%nat ∧
       cycled_bone_name (ModelAnimation.node_indices Example.clip_a)
         (Mdh.nodes Example.skeleton) i = Some b).
Proof.
  apply (decode_assigns_cycled_bone Example.round_scaled Example.clip_a Example.skeleton).
  - reflexivity.
  - discriminate.
  - intros i Hi. simpl in Hi.
    destruct i as [|[|[|[|i]]]]; [vm_compute; eexists; reflexivity..|lia].
Defined.

Lemma validated_merge_never_decodes_none_example :
  (∀ m, m ∈ [Example.clip_a; Example.clip_b] →
        parse_man Example.round_scaled m Example.skeleton ≠ Ok None) ∧
  (∀ merged_frames man_data,
     merge_loop Example.round_scaled Example.skeleton [Example.clip_a; Example.clip_b]
       merged_frames man_data ≠ Raise TypeError).
Proof.
  apply (validated_merge_never_decodes_none Example.round_scaled [Example.skeleton]
           [Example.file_a; Example.file_b] Example.clip_a Example.skeleton).
  - vm_compute. reflexivity.
  - reflexivity.
  - vm_compute. reflexivity.
Defined.

Lemma later_clip_overwrites_earlier_example :
  ∃ merged man_data alone man_data',
    merge_loop Example.round_scaled Example.skeleton [Example.clip_a; Example.clip_b] ∅ None
    = Ok (merged, man_data) ∧
    merge_loop Example.round_scaled Example.skeleton [Example.clip_b] ∅ None
    = Ok (alone, man_data') ∧
    is_Some (entry_at merged "BIP01" Translation 0) ∧
    entry_at merged "BIP01" Translation 0 = entry_at alone "BIP01" Translation 0 ∧
    entry_at merged "BIP01" Translation 0
    = left_by_assignments
        (entry_at (Data.frames (Example.decode Example.clip_b)) "BIP01" Translation 0) ∧
    (∀ b' t' i',
       is_Some (entry_at merged b' t' i') ↔
       ∃ d, d ∈ [Example.decode Example.clip_a; Example.decode Example.clip_b] ∧
            is_Some (entry_at (Data.frames d) b' t' i')).
Proof.
  apply (later_clip_overwrites_earlier Example.round_scaled Example.skeleton
           [Example.clip_a; Example.clip_b]
           [Example.decode Example.clip_a; Example.decode Example.clip_b]
           0 1 (Example.decode Example.clip_a) (Example.decode Example.clip_b)
           Example.clip_b "BIP01" Translation 0).
  - repeat constructor; vm_compute; reflexivity.
  - lia.
  - reflexivity.
  - reflexivity.
  - reflexivity.
  - vm_compute. eexists. reflexivity.
  - vm_compute. eexists. reflexivity.
  - intros k' d' Hk' Hd'.
    destruct k' as [|[|k']]; [lia|lia|]. simpl in Hd'. discriminate Hd'.
Defined.

Lemma failed_validation_skips_track_example :
  ∃ line,
    convert_anis Example.round_scaled "HUM_MIX.ASC" "HUMANS" Example.mixed_clips
      [Example.file_a; Example.file_other] (mdh_by_checksum [Example.skeleton])
    = ([Print line], Ok ()) ∧
    convert_tracks Example.round_scaled "HUMANS" Example.man_file_path_list
      (mdh_by_checksum [Example.skeleton])
      [("HUM_MIX.ASC"%string, Example.mixed_clips);
       ("HUM_RUN.ASC"%string, Example.gapped_clips)]
    = (Print line ::
         (convert_tracks Example.round_scaled "HUMANS" Example.man_file_path_list
            (mdh_by_checksum [Example.skeleton])
            [("HUM_RUN.ASC"%string, Example.gapped_clips)]).1,
       (convert_tracks Example.round_scaled "HUMANS" Example.man_file_path_list
          (mdh_by_checksum [Example.skeleton])
          [("HUM_RUN.ASC"%string, Example.gapped_clips)]).2).
Proof.
  apply (failed_validation_skips_track Example.round_scaled "HUMANS"
           Example.man_file_path_list (mdh_by_checksum [Example.skeleton])
           "HUM_MIX.ASC" Example.mixed_clips
           [("HUM_RUN.ASC"%string, Example.gapped_clips)]).
  left. vm_compute. intros Heq. discriminate Heq.
Defined.

(** * Further properties of the module *)

(** ** Range analyzer: clips with [first_frame <= last_frame] *)

Lemma check_adjacent_separated prev rest :
  Forall well_formed rest →
  check_adjacent prev rest = true →
  Forall (separated prev) rest ∧ StronglySorted separated rest.
Proof.
  revert prev. induction rest as [|curr rest IH]; intros prev Hwf; simpl.
  { intros _. split; constructor. }
  apply Forall_cons in Hwf as [Hcurr Hwf].
  destruct (Z.leb_spec (Ani.first_frame curr) (Ani.last_frame prev)); [done|].
  destruct (Z.eqb_spec (Ani.first_frame curr) (Ani.last_frame prev + 1)); [|done].
  simpl. intros Hrest. destruct (IH curr Hwf Hrest) as [Hall Hsorted].
  split.
  - constructor; [done|]. eapply Forall_impl; [exact Hall|].
    unfold separated, well_formed in *. intros x. simpl. lia.
  - by constructor.
Qed.

Lemma abuts_in_order_separated s :
  Forall well_formed s → abuts_in_order s = true → StronglySorted separated s.
Proof.
  destruct s as [|r0 rest]; simpl; [constructor|].
  intros [_ Hwf]%Forall_cons Habuts.
  destruct (check_adjacent_separated r0 rest Hwf Habuts). by constructor.
Qed.

Lemma separated_trichotomy s x y :
  StronglySorted separated s → x ∈ s → y ∈ s →
  x = y ∨ separated x y ∨ separated y x.
Proof.
  induction 1 as [|a s Hs IH Ha]; [by intros ?%elem_of_nil|].
  rewrite Forall_forall in Ha.
  intros [->|Hx]%elem_of_cons [->|Hy]%elem_of_cons; auto.
Qed.

Lemma separated_NoDup s :
  Forall well_formed s → StronglySorted separated s → NoDup s.
Proof.
  intros Hwf. induction 1 as [|a s Hs IH Ha]; [constructor|].
  apply Forall_cons in Hwf as [Hwa Hwf]. constructor; [|by apply IH].
  intros Hin. rewrite Forall_forall in Ha. specialize (Ha a Hin).
  unfold separated, well_formed in *. lia.
Qed.

Lemma separated_sorted_by_first s :
  Forall well_formed s → StronglySorted separated s →
  StronglySorted (λ a b, Ani.first_frame a ≤ Ani.first_frame b) s.
Proof.
  intros Hwf. induction 1 as [|a s Hs IH Ha]; [constructor|].
  apply Forall_cons in Hwf as [Hwa Hwf]. constructor; [by apply IH|].
  eapply Forall_impl; [exact Ha|]. unfold separated, well_formed in *.
  intros x. simpl. lia.
Qed.

(** A well-formed arrangement that abuts is the sorted arrangement. *)
Lemma abutting_arrangement_is_sorted s l :
  Forall well_formed s → abuts_in_order s = true → s ≡ₚ l →
  py_sorted Ani.first_frame l = s.
Proof.
  intros Hwf Habuts Hperm.
  pose proof (abuts_in_order_separated s Hwf Habuts) as Hsep.
  apply (StronglySorted_unique_strong (λ a b, Ani.first_frame a ≤ Ani.first_frame b)).
  - intros x1 x2 Hx1 Hx2 H12 H21.
    assert (Hx1' : x1 ∈ s) by by rewrite Hperm, <-(py_sorted_perm Ani.first_frame l).
    destruct (separated_trichotomy s x1 x2 Hsep Hx1' Hx2) as [?|[Hlt|Hlt]]; [done|..].
    + rewrite Forall_forall in Hwf. specialize (Hwf x1 Hx1').
      unfold separated, well_formed in *. lia.
    + rewrite Forall_forall in Hwf. specialize (Hwf x2 Hx2).
      unfold separated, well_formed in *. lia.
  - apply py_sorted_sorted.
  - by apply separated_sorted_by_first.
  - by rewrite py_sorted_perm.
Qed.

Lemma accepted_sorted_separated l :
  Forall well_formed l →
  is_continuous_and_non_overlapping l = true →
  StronglySorted separated (py_sorted Ani.first_frame l).
Proof.
  intros Hwf Hok. apply abuts_in_order_separated; [|done].
  by rewrite py_sorted_perm.
Qed.

(** X1: on clips with [first_frame <= last_frame] the range analyzer does
    not depend on the order in which the clips are given. *)
Theorem range_analyzer_order_independent (l l' : list Ani.t) :
  Forall well_formed l → l ≡ₚ l' →
  is_continuous_and_non_overlapping l = is_continuous_and_non_overlapping l'.
Proof.
  assert (Hdir : ∀ k k', Forall well_formed k → k ≡ₚ k' →
            is_continuous_and_non_overlapping k = true →
            is_continuous_and_non_overlapping k' = true).
  { intros k k' Hwf Hperm Hok.
    assert (Hs : py_sorted Ani.first_frame k' = py_sorted Ani.first_frame k).
    { apply abutting_arrangement_is_sorted; [by rewrite py_sorted_perm|done|].
      by rewrite py_sorted_perm. }
    unfold is_continuous_and_non_overlapping in *. by rewrite Hs. }
  intros Hwf Hperm.
  destruct (is_continuous_and_non_overlapping l) eqn:Hl.
  - symmetry. by apply (Hdir l l').
  - destruct (is_continuous_and_non_overlapping l') eqn:Hl'; [|done].
    rewrite <-Hl. apply (Hdir l' l); [by rewrite <-Hperm|done|done].
Qed.

(** X2: clips with [first_frame <= last_frame] that the range analyzer
    accepts are pairwise different and pairwise disjoint: of two of them,
    one ends before the other starts. *)
Theorem accepted_clips_are_disjoint (l : list Ani.t) :
  Forall well_formed l →
  is_continuous_and_non_overlapping l = true →
  NoDup l ∧
  ∀ a b, a ∈ l → b ∈ l → a ≠ b →
         Ani.last_frame a < Ani.first_frame b ∨ Ani.last_frame b < Ani.first_frame a.
Proof.
  intros Hwf Hok.
  pose proof (accepted_sorted_separated l Hwf Hok) as Hsep.
  assert (Hwfs : Forall well_formed (py_sorted Ani.first_frame l))
    by by rewrite py_sorted_perm.
  split.
  - rewrite <-(py_sorted_perm Ani.first_frame l). by apply separated_NoDup.
  - intros a b Ha Hb Hne.
    rewrite <-(py_sorted_perm Ani.first_frame l) in Ha, Hb.
    destruct (separated_trichotomy _ a b Hsep Ha Hb) as [?|[?|?]]; [done|by left|by right].
Qed.

Lemma total_frames_perm l l' : l ≡ₚ l' → total_frames l = total_frames l'.
Proof.
  induction 1 as [|x l l' _ IH|x y l|l1 l2 l3 _ IH1 _ IH2]; simpl; lia.
Qed.

Lemma check_adjacent_total prev rest :
  check_adjacent prev rest = true →
  total_frames (prev :: rest) =
  Ani.last_frame (default prev (last rest)) - Ani.first_frame prev + 1.
Proof.
  revert prev. induction rest as [|curr rest IH]; intros prev.
  { simpl. unfold span. lia. }
  cbn [check_adjacent].
  destruct (Z.leb_spec (Ani.first_frame curr) (Ani.last_frame prev)); [done|].
  destruct (Z.eqb_spec (Ani.first_frame curr) (Ani.last_frame prev + 1)); [|done].
  simpl negb. cbv iota. intros Hrest. specialize (IH curr Hrest).
  rewrite last_cons.
  change (total_frames (prev :: curr :: rest))
    with (span prev + 1 + total_frames (curr :: rest)).
  rewrite IH. unfold span. destruct (last rest); simpl; lia.
Qed.

(** X3: clips with [first_frame <= last_frame] that the range analyzer
    accepts have together exactly as many frames as the range from their
    least first frame to their greatest last frame has: every frame of
    that range is covered once. *)
Theorem accepted_clips_count_the_range (l : list Ani.t) (start stop : Z) :
  Forall well_formed l →
  is_continuous_and_non_overlapping l = true →
  frame_range l = Ok (start, stop) →
  total_frames l = stop - start + 1.
Proof.
  intros Hwf Hok Hrange.
  pose proof (accepted_sorted_separated l Hwf Hok) as Hsep.
  pose proof (py_sorted_sorted Ani.first_frame l) as Hsorted.
  pose proof (py_sorted_perm Ani.first_frame l) as Hperm.
  apply frame_range_inv in Hrange as [Hmin Hmax].
  assert (Hne : l ≠ []) by (by intros ->).
  destruct (py_min_spec (Ani.first_frame <$> l)) as (m & Hm & Hmin_in & Hmin_le);
    [by destruct l|].
  destruct (py_max_spec (Ani.last_frame <$> l)) as (M & HM & Hmax_in & Hmax_le);
    [by destruct l|].
  assert (m = start) by congruence. assert (M = stop) by congruence. subst m M.
  clear Hm HM Hmin Hmax.
  rewrite <-(total_frames_perm _ _ Hperm).
  unfold is_continuous_and_non_overlapping in Hok.
  assert (Hwfs : Forall well_formed (py_sorted Ani.first_frame l)) by by rewrite Hperm.
  destruct (py_sorted Ani.first_frame l) as [|r0 rest] eqn:Hs.
  { symmetry in Hperm. by apply Permutation_nil_r in Hperm. }
  rewrite (check_adjacent_total r0 rest Hok).
  assert (Hin : ∀ x, x ∈ l ↔ x ∈ r0 :: rest) by (intros x; by rewrite Hperm).
  assert (Hstart : start = Ani.first_frame r0).
  { apply Z.le_antisymm.
    - apply Hmin_le, list_elem_of_fmap. exists r0. split; [done|].
      apply Hin, list_elem_of_here.
    - apply list_elem_of_fmap in Hmin_in as (x & -> & Hx).
      apply Hin, elem_of_cons in Hx as [->|Hx]; [done|].
      apply StronglySorted_inv in Hsorted as [_ Hall].
      rewrite Forall_forall in Hall. by apply Hall. }
  assert (Hstop : stop = Ani.last_frame (default r0 (last rest))).
  { rewrite Forall_forall in Hwfs.
    destruct (last rest) as [z|] eqn:Hlast; simpl.
    - apply last_Some in Hlast as [rest' ->].
      apply Z.le_antisymm.
      + apply list_elem_of_fmap in Hmax_in as (x & -> & Hx).
        apply Hin in Hx. rewrite app_comm_cons in Hx, Hsep.
        apply elem_of_app in Hx as [Hx|Hx%list_elem_of_singleton]; [|by subst x].
        pose proof (StronglySorted_app_1_elem_of _ _ _ x z Hsep Hx) as Hxz.
        specialize (Hxz ltac:(apply list_elem_of_here)).
        assert (well_formed z).
        { apply Hwfs. rewrite app_comm_cons. apply elem_of_app. right.
          apply list_elem_of_here. }
        unfold separated, well_formed in *. lia.
      + apply Hmax_le, list_elem_of_fmap. exists z. split; [done|].
        apply Hin. rewrite app_comm_cons. apply elem_of_app. right.
        apply list_elem_of_here.
    - apply last_None in Hlast. subst rest.
      apply list_elem_of_fmap in Hmax_in as (x & -> & Hx).
      by apply Hin, list_elem_of_singleton in Hx as ->. }
  lia.
Qed.

(** ** Combination selector: what is returned *)

Lemma singleton_sublist {A : Type} (a : A) (l : list A) : a ∈ l → [a] `sublist_of` l.
Proof.
  induction l as [|x l IH]; [by intros ?%elem_of_nil|].
  intros [->|Hin]%elem_of_cons.
  - apply sublist_skip, sublist_nil_l.
  - by apply sublist_cons, IH.
Qed.

Lemma sublist_full {A : Type} (l1 l2 : list A) :
  l1 `sublist_of` l2 → (length l2 ≤ length l1)%nat → l1 = l2.
Proof.
  induction 1 as [|x l1 l2 Hsub IH|x l1 l2 Hsub IH]; simpl; intros Hlen; [done|..].
  - f_equal. apply IH. lia.
  - apply sublist_length in Hsub. lia.
Qed.

Lemma select_candidate_spec (anis : list Ani.t) :
  anis ≠ [] →
  ∃ cand, select_candidate anis = Ok cand ∧ cand ≠ [] ∧
          cand `sublist_of` anis ∧
          is_continuous_and_non_overlapping cand = true.
Proof.
  intros Hne. unfold select_candidate.
  destruct (exact_cover_search anis) as [|c best] eqn:Hsearch.
  - destruct (largest_span_spec anis Hne) as (a & -> & Ha & _).
    exists [a]. split_and!; [done|done|by apply singleton_sublist|done].
  - exists (c :: best). split_and!; [done|done|..];
      rewrite exact_cover_search_enumeration in Hsearch;
      destruct (foldl_consider_spec (enumeration anis) [])
        as [[Hr _]|(pre & post & Henum & Hv & _)];
      rewrite Hsearch in *; try done.
    assert (Hin : c :: best ∈ enumeration anis).
    { rewrite Henum. apply elem_of_app. right. apply list_elem_of_here. }
    by apply elem_of_enumeration in Hin as [? _].
Qed.

Lemma find_best_anis_combo_nonempty asc_name (anis : list Ani.t) :
  anis ≠ [] →
  ∃ chosen,
    find_best_anis_combo asc_name anis = Ok chosen ∧
    chosen ≠ [] ∧
    chosen `sublist_of` anis ∧
    frame_range chosen = frame_range anis ∧
    (chosen = anis ∨ is_continuous_and_non_overlapping chosen = true).
Proof.
  intros Hne.
  destruct (decide (length anis = 1%nat)) as [Hone|Hlen].
  { exists anis. unfold find_best_anis_combo. rewrite Hone. simpl.
    split_and!; [done|done|done|done|by left]. }
  destruct (select_candidate_spec anis Hne) as (cand & Hcand & Hcne & Hsub & Hok).
  destruct (frame_range_total cand Hcne) as [r_cand Hrc].
  destruct (frame_range_total anis Hne) as [r_full Hrf].
  rewrite (find_best_anis_combo_range asc_name anis cand r_cand r_full) by done.
  case_decide as Heq.
  - exists cand. split_and!; [done|done|done|congruence|by right].
  - exists anis. split_and!; [done|done|done|done|by left].
Qed.

(** X4: the selector raises only on an empty list of clips, and then
    [ValueError]; on every other input it returns a non-empty selection of
    the input's clips, in input order, whose frame range is the input's;
    the selection is the whole input or a list that the range analyzer
    accepts. *)
Theorem selector_outcome (asc_name : string) (anis : list Ani.t) :
  (anis = [] → find_best_anis_combo asc_name anis = Raise ValueError) ∧
  (anis ≠ [] →
   ∃ chosen,
     find_best_anis_combo asc_name anis = Ok chosen ∧
     chosen ≠ [] ∧
     chosen `sublist_of` anis ∧
     frame_range chosen = frame_range anis ∧
     (chosen = anis ∨ is_continuous_and_non_overlapping chosen = true)).
Proof.
  split.
  - by intros ->.
  - apply find_best_anis_combo_nonempty.
Qed.

Lemma exact_cover_search_whole_input (anis : list Ani.t) :
  (2 ≤ length anis)%nat →
  is_continuous_and_non_overlapping anis = true →
  exact_cover_search anis = anis.
Proof.
  intros Hlen Hok. rewrite exact_cover_search_enumeration.
  assert (Hin : anis ∈ enumeration anis) by by apply elem_of_enumeration.
  destruct (foldl_consider_spec (enumeration anis) [])
    as [[_ Hall]|(pre & post & Henum & Hv & _ & Hpre & Hpost)].
  { specialize (Hall anis Hin Hok). simpl in Hall. lia. }
  remember (foldl consider [] (enumeration anis)) as r eqn:Hfold.
  assert (Hr : r `sublist_of` anis).
  { assert (r ∈ enumeration anis) as [? _]%elem_of_enumeration; [|done].
    rewrite Henum. apply elem_of_app. right. apply list_elem_of_here. }
  apply sublist_full; [done|].
  rewrite Henum in Hin.
  apply elem_of_app in Hin as [Hin|[Heq|Hin]%elem_of_cons];
    [|by rewrite Heq|by apply Hpost].
  specialize (Hpre anis Hin Hok). apply sublist_length in Hr. lia.
Qed.

Lemma find_best_anis_combo_complete_tiling (asc_name : string) (anis : list Ani.t) :
  anis ≠ [] →
  is_continuous_and_non_overlapping anis = true →
  find_best_anis_combo asc_name anis = Ok anis.
Proof.
  intros Hne Hok.
  destruct (decide (length anis = 1%nat)) as [Hone|Hlen].
  { unfold find_best_anis_combo. by rewrite Hone. }
  assert (Hlen2 : (2 ≤ length anis)%nat).
  { destruct anis as [|? [|? ?]]; simpl in *; try done; lia. }
  destruct (frame_range_total anis Hne) as [r_full Hrf].
  rewrite (find_best_anis_combo_range asc_name anis anis r_full r_full); try done.
  - by case_decide.
  - unfold select_candidate. rewrite exact_cover_search_whole_input by done.
    by destruct anis.
Qed.



(** X10: the selector returns its own results unchanged: applied to a list
    it has returned, under any track name, it returns that list. *)
Theorem selector_idempotent (asc_name asc_name' : string) (anis chosen : list Ani.t) :
  find_best_anis_combo asc_name anis = Ok chosen →
  find_best_anis_combo asc_name' chosen = Ok chosen.
Proof.
  intros Hchosen.
  destruct (decide (length anis = 1%nat)) as [Hone|Hlen].
  { unfold find_best_anis_combo in Hchosen. rewrite Hone in Hchosen. simpl in Hchosen.
    injection Hchosen as <-. unfold find_best_anis_combo. by rewrite Hone. }
  assert (Hne : anis ≠ []) by (intros ->; done).
  destruct (find_best_anis_combo_nonempty asc_name anis Hne)
    as (chosen' & Hchosen' & Hcne & _ & _ & Hcase).
  assert (chosen' = chosen) as -> by congruence.
  destruct Hcase as [->|Hok].
  - destruct (select_candidate_spec anis Hne) as (cand & Hcand & Hcandne & _ & _).
    destruct (frame_range_total cand Hcandne) as [r_cand Hrc].
    destruct (frame_range_total anis Hne) as [r_full Hrf].
    rewrite (find_best_anis_combo_range asc_name anis cand r_cand r_full) in Hchosen
      by done.
    rewrite (find_best_anis_combo_range asc_name' anis cand r_cand r_full) by done.
    done.
  - by apply find_best_anis_combo_complete_tiling.
Qed.

(** ** Clip grouper *)

Lemma group_append_keys key ani (d : list (string * list Ani.t)) :
  (group_append key ani d).*1 = if decide (key ∈ d.*1) then d.*1 else d.*1 ++ [key].
Proof.
  induction d as [|[k l] d IH].
  { rewrite decide_False; [done|]. apply not_elem_of_nil. }
  cbn [group_append fmap list_fmap fst].
  destruct (decide (k = key)) as [->|Hne]; cbn [fmap list_fmap fst].
  - rewrite decide_True; [done|apply list_elem_of_here].
  - rewrite IH. destruct (decide (key ∈ d.*1)) as [Hin|Hin].
    + rewrite decide_True; [done|by apply list_elem_of_further].
    + rewrite decide_False; [done|]. by intros [?|?]%elem_of_cons.
Qed.

Lemma group_append_elem_of key ani (d : list (string * list Ani.t)) k l :
  NoDup d.*1 →
  (k, l) ∈ group_append key ani d ↔
  if decide (k = key)
  then ∃ l0, l = l0 ++ [ani] ∧ ((key, l0) ∈ d ∨ (l0 = [] ∧ key ∉ d.*1))
  else (k, l) ∈ d.
Proof.
  induction d as [|[k' l'] d IH]; simpl; intros Hnodup.
  { rewrite list_elem_of_singleton. case_decide as Hk.
    - subst k. split.
      + intros [= ->]. exists []. split; [done|]. right. split; [done|apply not_elem_of_nil].
      + intros (l0 & -> & [Hin|[-> _]]); [by apply elem_of_nil in Hin|done].
    - split; [by intros [= -> ->]|by intros ?%elem_of_nil]. }
  apply NoDup_cons in Hnodup as [Hfresh Hnodup].
  destruct (decide (k' = key)) as [->|Hne].
  - rewrite elem_of_cons. case_decide as Hk.
    + subst k. split.
      * intros [[= ->]|Hin].
        -- exists l'. split; [done|]. left. apply list_elem_of_here.
        -- destruct Hfresh. apply list_elem_of_fmap. by exists (key, l).
      * intros (l0 & -> & [Hin|[-> Hnot]]).
        -- apply elem_of_cons in Hin as [[= ->]|Hin]; [by left|].
           destruct Hfresh. apply list_elem_of_fmap. by exists (key, l0).
        -- destruct Hnot. apply list_elem_of_here.
    + rewrite elem_of_cons. split; (intros [[= -> ->]|Hin]; [done|by right]).
  - rewrite elem_of_cons, (IH Hnodup). case_decide as Hk.
    + subst k. split.
      * intros [[= -> ->]|(l0 & -> & Hcase)]; [done|].
        exists l0. split; [done|]. destruct Hcase as [Hin|[-> Hnot]].
        -- left. by apply list_elem_of_further.
        -- right. split; [done|]. by intros [?|?]%elem_of_cons.
      * intros (l0 & -> & Hcase). right. exists l0. split; [done|].
        destruct Hcase as [Hin|[-> Hnot]].
        -- apply elem_of_cons in Hin as [[= -> ->]|Hin]; [done|by left].
        -- right. split; [done|]. intros Hin. apply Hnot. by apply list_elem_of_further.
    + by rewrite elem_of_cons.
Qed.

Lemma anis_by_asc_snoc animations ani :
  anis_by_asc (animations ++ [ani]) =
  if is_asc (Ani.model ani)
  then group_append (Ani.model ani) ani (anis_by_asc animations)
  else anis_by_asc animations.
Proof. unfold anis_by_asc. by rewrite foldl_app. Qed.

Lemma anis_by_asc_spec (animations : list Ani.t) :
  NoDup (anis_by_asc animations).*1 ∧
  ∀ key anis,
    (key, anis) ∈ anis_by_asc animations ↔
    anis ≠ [] ∧ is_asc key = true ∧
    anis = filter (λ a, Ani.model a = key) animations.
Proof.
  induction animations as [|ani animations [IHk IH]] using rev_ind.
  { split; [constructor|]. intros key anis. split.
    - by intros ?%elem_of_nil.
    - by intros (Hne & _ & ->). }
  rewrite anis_by_asc_snoc.
  assert (Hkey : ∀ key, is_asc key = true →
            key ∈ (anis_by_asc animations).*1 ↔
            filter (λ a, Ani.model a = key) animations ≠ []).
  { intros key Hasc. rewrite list_elem_of_fmap. split.
    - intros ([k l] & -> & Hin). apply IH in Hin as (Hne & _ & Heq). simpl. congruence.
    - intros Hne. eexists (key, _). split; [done|]. by apply IH. }
  destruct (is_asc (Ani.model ani)) eqn:Hasc.
  - split.
    { rewrite group_append_keys. case_decide as Hin; [done|].
      apply NoDup_app. split_and!; [done| |apply NoDup_singleton].
      intros x Hx ->%list_elem_of_singleton. done. }
    intros key anis. rewrite group_append_elem_of by done.
    rewrite filter_app, filter_cons, filter_nil.
    case_decide as Hk.
    + subst key. rewrite decide_True by done. split.
      * intros (l0 & -> & [Hin|[-> Hnot]]).
        -- apply IH in Hin as (_ & _ & <-). split_and!; [by destruct l0|done|done].
        -- rewrite Hkey in Hnot by done.
           destruct (filter _ animations) eqn:Hf; [done|by destruct Hnot].
      * intros (_ & _ & ->). eexists. split; [done|].
        destruct (filter (λ a, Ani.model a = Ani.model ani) animations) as [|x f] eqn:Hf.
        -- right. split; [done|]. rewrite Hkey by done. rewrite Hf. by intros Hne.
        -- left. apply IH. by rewrite Hf.
    + rewrite decide_False by done. rewrite app_nil_r. apply IH.
  - split; [done|]. intros key anis.
    rewrite filter_app, filter_cons, filter_nil. rewrite IH.
    case_decide as Hk; [|by rewrite app_nil_r].
    split; intros (Hne & Hkasc & _); congruence.
Qed.

(** X6: the grouper puts every clip whose model name ends in [.asc]
    (whatever the case of the letters) into the group of its model name,
    compared exactly; each group holds all clips of its model, in script
    order, is not empty, and occurs once; clips with other model names
    are in no group.  Groups appear in the order of their first clip:
    reading more animations only adds groups at the end. *)
Theorem grouper_groups_by_model (animations more : list Ani.t) :
  NoDup (anis_by_asc animations).*1 ∧
  (∀ key anis,
     (key, anis) ∈ anis_by_asc animations ↔
     anis ≠ [] ∧ is_asc key = true ∧
     anis = filter (λ a, Ani.model a = key) animations) ∧
  (anis_by_asc animations).*1 `prefix_of` (anis_by_asc (animations ++ more)).*1.
Proof.
  destruct (anis_by_asc_spec animations) as [Hnodup Hgroups].
  split_and!; [done|done|].
  induction more as [|ani more IH] using rev_ind.
  { by rewrite app_nil_r. }
  rewrite app_assoc, anis_by_asc_snoc.
  destruct (is_asc (Ani.model ani)); [|done].
  rewrite group_append_keys. case_decide; [done|].
  etrans; [exact IH|]. by apply prefix_app_r.
Qed.

Lemma final_anis_spec (groups : list (string * list Ani.t)) :
  Forall (λ g, g.2 ≠ []) groups →
  ∃ final,
    final_anis groups = Ok final ∧
    Forall2 (λ g f, f.1 = g.1 ∧ find_best_anis_combo g.1 g.2 = Ok f.2) groups final.
Proof.
  induction 1 as [|[asc_name anis] groups Hne _ (final & Hfinal & Hall)]; simpl.
  { exists []. by split. }
  simpl in Hne.
  destruct (find_best_anis_combo_nonempty asc_name anis Hne) as (chosen & Hchosen & _).
  rewrite Hchosen. simpl. rewrite Hfinal. simpl.
  eexists. split; [done|]. by constructor.
Qed.

(** X7: [parse_msb] never raises: no group is empty, so the selector
    returns for every group.  The result has the groups' keys in the
    groups' order, and under each key a non-empty selection of that
    group's clips, in order, with the frame range of the whole group. *)
Theorem parse_msb_returns (animations : list Ani.t) :
  ∃ final,
    parse_msb animations = Ok final ∧
    final.*1 = (anis_by_asc animations).*1 ∧
    Forall2 (λ g f,
               find_best_anis_combo g.1 g.2 = Ok f.2 ∧
               f.2 ≠ [] ∧ f.2 `sublist_of` g.2 ∧
               frame_range f.2 = frame_range g.2)
            (anis_by_asc animations) final.
Proof.
  destruct (anis_by_asc_spec animations) as [_ Hgroups].
  destruct (final_anis_spec (anis_by_asc animations)) as (final & Hfinal & Hall).
  { apply Forall_forall. intros [key anis] Hin. by apply Hgroups in Hin as [? _]. }
  exists final. split; [done|].
  assert (Hne : Forall (λ g, g.2 ≠ []) (anis_by_asc animations)).
  { apply Forall_forall. intros [key anis] Hin. by apply Hgroups in Hin as [? _]. }
  clear Hfinal Hgroups. revert Hne.
  induction Hall as [|g f gs fs [Hk Hbest] _ IH]; intros Hne.
  { split; [done|constructor]. }
  apply Forall_cons in Hne as [Hg Hne]. destruct (IH Hne) as [IHk IHf].
  split.
  - cbn [fmap list_fmap]. by rewrite Hk, IHk.
  - constructor; [|done].
    destruct (find_best_anis_combo_nonempty g.1 g.2 Hg)
      as (chosen & Hchosen & Hcne & Hsub & Hrange & _).
    assert (chosen = f.2) as -> by congruence. done.
Qed.

(** ** Sample decoder: when it returns and what it returns *)

Section DecoderOutcome.
Variable round : float → Z → float.

Lemma parse_samples_ok_bones node_indices nodes samples (k o : nat) frames frames' :
  let n := length node_indices in
  (n ≠ 0%nat → (if (n <=? o)%nat then 0%nat else o) = (k mod n)%nat) →
  parse_samples round node_indices nodes samples k o frames = Ok frames' →
  ∀ j, (j < length samples)%nat →
       is_Some (cycled_bone_name node_indices nodes (k + j)).
Proof.
  intros n. revert k o frames.
  induction samples as [|s samples IH]; intros k o frames Hoff; simpl.
  { intros _ j Hj. lia. }
  fold n. unfold py_index.
  destruct (node_indices !! (if (n <=? o)%nat then 0%nat else o))
    as [bone_index|] eqn:Hidx; simpl; [|done].
  destruct (nodes !! bone_index) as [node|] eqn:Hnode; simpl; [|done].
  assert (Hn : n ≠ 0%nat).
  { intros Hn. apply nil_length_inv in Hn. subst node_indices.
    by rewrite lookup_nil in Hidx. }
  rewrite (Hoff Hn) in *.
  intros Hrun [|j] Hj.
  - rewrite Nat.add_0_r. unfold cycled_bone_name. fold n.
    rewrite Hidx. simpl. rewrite Hnode. by eexists.
  - replace (k + S j)%nat with (S k + j)%nat by lia.
    eapply (IH (S k)); [|exact Hrun|lia].
    intros _. by apply cycle_offset_step.
Qed.

Lemma parse_samples_returns node_indices nodes samples :
  (∀ i, (i < length samples)%nat → is_Some (cycled_bone_name node_indices nodes i)) →
  ∃ frames,
    parse_samples round node_indices nodes samples 0 0 ∅ = Ok frames ∧
    (∀ i s b,
       samples !! i = Some s → cycled_bone_name node_indices nodes i = Some b →
       translation_at frames b i = Some (rounded_translation round s) ∧
       rotation_at frames b i = Some (rounded_rotation round s)) ∧
    (∀ b i,
       is_Some (translation_at frames b i) ∨ is_Some (rotation_at frames b i) →
       (i < length samples)%nat ∧ cycled_bone_name node_indices nodes i = Some b).
Proof.
  intros Hbones. destruct samples as [|s0 samples0] eqn:Hs.
  { exists ∅. split; [done|]. split.
    - intros i s b Hi. by rewrite lookup_nil in Hi.
    - intros b i. unfold translation_at, rotation_at. rewrite lookup_empty. simpl.
      by intros [[? ?]|[? ?]]. }
  rewrite <-Hs in *.
  assert (Hn : length node_indices ≠ 0%nat).
  { intros Hn. apply nil_length_inv in Hn. subst node_indices.
    destruct (Hbones 0%nat) as [b Hb]; [subst samples; simpl; lia|].
    unfold cycled_bone_name in Hb. by rewrite lookup_nil in Hb. }
  destruct (parse_samples_spec round node_indices nodes samples 0 0 ∅)
    as (frames & Hrun & Hwritten & Hkept); [done| |done|].
  { rewrite Nat.Div0.mod_0_l. by destruct (_ <=? _)%nat. }
  exists frames. split; [done|]. split.
  - intros i s b Hi Hb. by apply (Hwritten i s b).
  - intros b i Hsome.
    destruct (decide ((i < length samples)%nat ∧
                      cycled_bone_name node_indices nodes i = Some b)) as [|Hnot]; [done|].
    destruct (Hkept b i) as [Ht Hr].
    { intros j Hj -> Hb. by apply Hnot. }
    rewrite Ht, Hr in Hsome. unfold translation_at, rotation_at in Hsome.
    rewrite lookup_empty in Hsome. simpl in Hsome.
    destruct Hsome as [[? ?]|[? ?]]; done.
Qed.

(** X8: the three outcomes of the decoder.  It returns [None] exactly when
    the stream's checksum is not the skeleton's.  With equal checksums it
    returns a structure exactly when, for every sample index [i],
    [node_indices[i mod len(node_indices)]] exists and is an index of the
    skeleton's nodes; otherwise it raises [IndexError].  It raises nothing
    else. *)
Theorem decoder_outcome (man : ModelAnimation.t) (mdh : Mdh.t) :
  let bones_exist :=
    ∀ i, (i < length (ModelAnimation.samples man))%nat →
         is_Some (cycled_bone_name (ModelAnimation.node_indices man) (Mdh.nodes mdh) i) in
  (parse_man round man mdh = Ok None ↔
   ModelAnimation.checksum man ≠ Mdh.checksum mdh) ∧
  ((∃ d, parse_man round man mdh = Ok (Some d)) ↔
   ModelAnimation.checksum man = Mdh.checksum mdh ∧ bones_exist) ∧
  (parse_man round man mdh = Raise IndexError ↔
   ModelAnimation.checksum man = Mdh.checksum mdh ∧ ¬ bones_exist) ∧
  (∀ e, parse_man round man mdh = Raise e → e = IndexError).
Proof.
  intros bones_exist. unfold parse_man.
  destruct (Z.eqb_spec (ModelAnimation.checksum man) (Mdh.checksum mdh)) as [Heq|Hne];
    simpl.
  2: { split_and!; [done| | |done].
       - split; [by intros [? ?]|by intros [? _]].
       - split; [done|by intros [? _]]. }
  destruct (parse_samples round _ _ _ 0 0 ∅) as [frames|e] eqn:Hrun; simpl.
  - assert (Hbones : bones_exist).
    { intros i Hi.
      apply (parse_samples_ok_bones (ModelAnimation.node_indices man) (Mdh.nodes mdh)
               (ModelAnimation.samples man) 0 0 ∅ frames); [|done|done].
      intros _. rewrite Nat.Div0.mod_0_l. by destruct (_ <=? _)%nat. }
    split_and!; [split; [done|by intros ?]| |split; [done|by intros [_ ?]]|done].
    split; [done|]. intros _. by eexists.
  - apply parse_samples_raises in Hrun as Hi. subst e.
    assert (Hbones : ¬ bones_exist).
    { intros Hbones.
      destruct (parse_samples_returns _ _ _ Hbones) as (frames & Hok & _). congruence. }
    split_and!; [split; [done|by intros ?]| |done|by intros e [= <-]].
    split; [by intros [? ?]|by intros [_ ?]].
Qed.

Lemma parse_samples_bones node_indices nodes samples k o frames frames' :
  parse_samples round node_indices nodes samples k o frames = Ok frames' →
  (∀ b, is_Some (frames !! b) → ∃ i, is_Some (translation_at frames b i)) →
  ∀ b, is_Some (frames' !! b) → ∃ i, is_Some (translation_at frames' b i).
Proof.
  revert k o frames. induction samples as [|s samples IH]; intros k o frames; simpl.
  { by intros [= <-]. }
  unfold py_index.
  destruct (node_indices !! _) as [bone_index|]; simpl; [|done].
  destruct (nodes !! bone_index) as [node|]; simpl; [|done].
  intros Hrun Hframes. eapply IH; [exact Hrun|].
  set (b0 := Mdh.name node).
  pose proof (ensure_bone_is_Some (V := list float) b0 frames) as H1.
  intros b Hb. unfold set_rotation at 1.
  setoid_rewrite translation_at_alter_rotation.
  setoid_rewrite translation_at_set; [|done].
  destruct (decide (b0 = b)) as [<-|Hne].
  - exists k. rewrite decide_True by done. by eexists.
  - rewrite !lookup_alter_ne in Hb by done.
    assert (Hold : is_Some (frames !! b)).
    { unfold ensure_bone in Hb. destruct (frames !! b0); [done|].
      by rewrite lookup_insert_ne in Hb. }
    destruct (Hframes b Hold) as [i Hi]. exists i.
    rewrite decide_False by (by intros [? _]).
    by rewrite translation_at_ensure_bone.
Qed.

(** X9: the shape of a decode.  Its header fields are the stream's, its
    [source_script] is empty; every translation stored has three
    components and every rotation four; a bone has an entry in [frames]
    exactly when some sample is assigned to it, so no bone is listed
    without samples. *)
Theorem decode_shape (man : ModelAnimation.t) (mdh : Mdh.t) (d : Data.t (list float)) :
  parse_man round man mdh = Ok (Some d) →
  (Data.checksum d, Data.frame_count d, Data.fps d, Data.fps_source d, Data.layer d)
  = (ModelAnimation.checksum man, ModelAnimation.frame_count man,
     ModelAnimation.fps man, ModelAnimation.fps_source man, ModelAnimation.layer man) ∧
  Data.source_script d = ∅ ∧
  (∀ b i v, translation_at (Data.frames d) b i = Some v → length v = 3%nat) ∧
  (∀ b i v, rotation_at (Data.frames d) b i = Some v → length v = 4%nat) ∧
  (∀ b, is_Some (Data.frames d !! b) ↔
        ∃ i, (i < length (ModelAnimation.samples man))%nat ∧
             cycled_bone_name (ModelAnimation.node_indices man) (Mdh.nodes mdh) i
             = Some b).
Proof.
  intros Hparse.
  unfold parse_man in Hparse. destruct (negb _); [done|].
  destruct (parse_samples round _ _ _ 0 0 ∅) as [frames|] eqn:Hrun; simpl in Hparse; [|done].
  injection Hparse as <-. simpl.
  assert (Hbones : ∀ i, (i < length (ModelAnimation.samples man))%nat →
            is_Some (cycled_bone_name (ModelAnimation.node_indices man)
                       (Mdh.nodes mdh) i)).
  { intros i Hi.
    apply (parse_samples_ok_bones (ModelAnimation.node_indices man) (Mdh.nodes mdh)
               (ModelAnimation.samples man) 0 0 ∅ frames); [|done|done].
    intros _. rewrite Nat.Div0.mod_0_l. by destruct (_ <=? _)%nat. }
  destruct (parse_samples_returns _ _ _ Hbones) as (frames0 & Hok & Hwritten & Honly).
  assert (frames0 = frames) as -> by congruence.
  assert (Hentry : ∀ b i, is_Some (translation_at frames b i) ∨
                          is_Some (rotation_at frames b i) →
            ∃ s, ModelAnimation.samples man !! i = Some s ∧
                 translation_at frames b i = Some (rounded_translation round s) ∧
                 rotation_at frames b i = Some (rounded_rotation round s)).
  { intros b i Hsome. destruct (Honly b i Hsome) as [Hi Hb].
    destruct (lookup_lt_is_Some_2 _ _ Hi) as [s Hs].
    exists s. split; [done|]. by apply Hwritten. }
  split_and!; [done|done|..].
  - intros b i v Hv. destruct (Hentry b i) as (s & _ & Ht & _); [left; by eexists|].
    rewrite Ht in Hv. by injection Hv as <-.
  - intros b i v Hv. destruct (Hentry b i) as (s & _ & _ & Hr); [right; by eexists|].
    rewrite Hr in Hv. by injection Hv as <-.
  - intros b. split.
    + intros Hb.
      destruct (parse_samples_bones _ _ _ _ _ _ _ Hrun) with (b := b) as [i Hi];
        [|done|].
      { intros b'. rewrite lookup_empty. by intros [? ?]. }
      exists i. apply Honly. by left.
    + intros (i & Hi & Hb).
      destruct (lookup_lt_is_Some_2 _ _ Hi) as [s Hs].
      destruct (Hwritten i s b Hs Hb) as [Ht _].
      unfold translation_at in Ht. destruct (frames !! b); [by eexists|done].
Qed.
End DecoderOutcome.

(** ** Track merger: bones, header and order *)

Lemma lookup_merge_bone bone (tracks : Data.tracks (list float))
    (merged_frames : gmap string (Data.tracks float)) b :
  is_Some (merge_bone bone tracks merged_frames !! b) ↔
  b = bone ∨ is_Some (merged_frames !! b).
Proof.
  unfold merge_bone. rewrite !lookup_alter_is_Some. unfold ensure_bone.
  destruct (merged_frames !! bone) eqn:Hbone.
  - split; [by right|]. intros [->|?]; [by rewrite Hbone|done].
  - destruct (decide (b = bone)) as [->|Hne].
    + rewrite lookup_insert_eq. split; [by left|by eexists].
    + rewrite lookup_insert_ne by done. split; [by right|by intros [?|?]].
Qed.

Lemma lookup_merge_frames (frames : gmap string (Data.tracks (list float)))
    (merged_frames : gmap string (Data.tracks float)) b :
  is_Some (merge_frames frames merged_frames !! b) ↔
  is_Some (frames !! b) ∨ is_Some (merged_frames !! b).
Proof.
  unfold merge_frames. revert b.
  apply (map_fold_weak_ind (λ r (m : gmap string (Data.tracks (list float))),
    ∀ b, is_Some (r !! b) ↔ is_Some (m !! b) ∨ is_Some (merged_frames !! b))).
  { intros b. rewrite lookup_empty. split; [by right|]. by intros [[? ?]|?]. }
  intros bone tracks m r Hfresh IH b.
  rewrite lookup_merge_bone, IH.
  destruct (decide (b = bone)) as [->|Hne].
  - rewrite lookup_insert_eq. split; [|by left]. intros _. left. by eexists.
  - rewrite lookup_insert_ne by done. split; [by intros [?|?]|by right].
Qed.

Lemma lookup_fold_decoded decoded (merged_frames : gmap string (Data.tracks float)) b :
  is_Some (fold_decoded decoded merged_frames !! b) ↔
  (∃ d, d ∈ decoded ∧ is_Some (Data.frames d !! b)) ∨ is_Some (merged_frames !! b).
Proof.
  induction decoded as [|x decoded IH] using rev_ind.
  { simpl. split; [by right|]. by intros [(d & ?%elem_of_nil & _)|?]. }
  unfold fold_decoded in *. rewrite foldl_app. simpl.
  rewrite lookup_merge_frames, IH. split.
  - intros [Hx|[(d & Hd & Hb)|Hm]]; [left|left|by right].
    + exists x. split; [|done]. apply elem_of_app. right. apply list_elem_of_here.
    + exists d. split; [|done]. apply elem_of_app. by left.
  - intros [(d & [Hd|Hd%list_elem_of_singleton]%elem_of_app & Hb)|Hm].
    + right. left. by exists d.
    + left. by subst d.
    + by right; right.
Qed.

Section MergerFacts.
Variable round : float → Z → float.

Lemma merge_loop_Some mdh model_animations merged_frames man_data merged_frames' man_data' :
  merge_loop round mdh model_animations merged_frames man_data
  = Ok (merged_frames', man_data') →
  model_animations ≠ [] ∨ is_Some man_data → is_Some man_data'.
Proof.
  revert merged_frames man_data.
  induction model_animations as [|m ms IH]; intros merged_frames man_data; simpl.
  { intros [= <- <-] [?|?]; done. }
  destruct (parse_man round m mdh) as [[d|]|]; simpl; [|done..].
  intros Hrun _. eapply IH; [exact Hrun|]. right. by eexists.
Qed.

Lemma merge_loop_raises mdh model_animations merged_frames man_data e :
  merge_loop round mdh model_animations merged_frames man_data = Raise e →
  e = IndexError ∨ e = TypeError.
Proof.
  revert merged_frames man_data.
  induction model_animations as [|m ms IH]; intros merged_frames man_data; simpl; [done|].
  destruct (parse_man round m mdh) as [[d|]|e'] eqn:Hparse; simpl.
  - apply IH.
  - intros [= <-]. by right.
  - intros [= <-]. left. by eapply parse_man_raises.
Qed.

(** What the merging part returns when every stream decodes. *)
Lemma merge_model_animations_decoded man_file_paths mdh checksum decoded
    last_file last_decode :
  Forall2 (λ f d, parse_man round (ManFile.load f) mdh = Ok (Some d))
          man_file_paths decoded →
  last man_file_paths = Some last_file →
  last decoded = Some last_decode →
  merge_model_animations round man_file_paths mdh checksum =
  Ok (Data.Merged mdh
        (Data.Make checksum
           (ModelAnimation.frame_count (ManFile.load last_file))
           (ModelAnimation.fps (ManFile.load last_file))
           (ModelAnimation.fps_source (ManFile.load last_file))
           (ModelAnimation.layer (ManFile.load last_file))
           ∅ (fold_decoded decoded ∅)),
      last_decode).
Proof.
  intros Hall Hfile Hdecode. unfold merge_model_animations, loop_variable.
  rewrite fmap_last, Hfile. cbn -[merge_loop].
  rewrite (merge_loop_decoded round mdh (ManFile.load <$> man_file_paths) decoded)
    by by apply Forall2_fmap_l.
  by rewrite Hdecode.
Qed.

(** X12: merging several streams that all decode.  The merged header takes
    [frame_count], [fps], [fps_source] and [layer] from the stream loaded
    last and the checksum from the caller; the frames are the fold of the
    decodes in list order; the variable [man_data] left by the loop is the
    decode of the last stream. *)
Theorem merged_header_is_last_stream (man_file_paths : list ManFile.t) (mdh : Mdh.t)
    (checksum : Z) (decoded : list (Data.t (list float)))
    (last_file : ManFile.t) (last_decode : Data.t (list float)) :
  Forall2 (λ f d, parse_man round (ManFile.load f) mdh = Ok (Some d))
          man_file_paths decoded →
  last man_file_paths = Some last_file →
  last decoded = Some last_decode →
  ∃ merged,
    merge_model_animations round man_file_paths mdh checksum = Ok (merged, last_decode) ∧
    parse_man round (ManFile.load last_file) mdh = Ok (Some last_decode) ∧
    Data.hierarchy merged = mdh ∧
    Data.checksum (Data.animation merged) = checksum ∧
    (Data.frame_count (Data.animation merged), Data.fps (Data.animation merged),
     Data.fps_source (Data.animation merged), Data.layer (Data.animation merged))
    = (ModelAnimation.frame_count (ManFile.load last_file),
       ModelAnimation.fps (ManFile.load last_file),
       ModelAnimation.fps_source (ManFile.load last_file),
       ModelAnimation.layer (ManFile.load last_file)) ∧
    Data.frames (Data.animation merged) = fold_decoded decoded ∅.
Proof.
  intros Hall Hfile Hdecode.
  rewrite (merge_model_animations_decoded _ _ _ decoded last_file last_decode) by done.
  eexists. split; [done|]. simpl. split_and!; try done.
  apply last_Some in Hfile as [files' ->]. apply last_Some in Hdecode as [decoded' ->].
  apply Forall2_app_inv in Hall as [_ Hlast].
  - by apply Forall2_cons_1 in Hlast as [? _].
  - apply Forall2_length in Hall. rewrite !length_app in Hall. simpl in Hall. lia.
Qed.

(** X13: the bones of a merge are the bones of the decodes: after folding
    streams that all decode into an empty structure, a bone is listed in
    the merged frames exactly when some stream's decode lists it. *)
Theorem merged_bones_are_decoded_bones (mdh : Mdh.t)
    (model_animations : list ModelAnimation.t) (decoded : list (Data.t (list float)))
    (b : string) :
  Forall2 (λ m d, parse_man round m mdh = Ok (Some d)) model_animations decoded →
  ∃ merged_frames,
    merge_loop round mdh model_animations ∅ None = Ok (merged_frames, last decoded) ∧
    (is_Some (merged_frames !! b) ↔
     ∃ d, d ∈ decoded ∧ is_Some (Data.frames d !! b)).
Proof.
  intros Hall. exists (fold_decoded decoded ∅). split.
  - rewrite (merge_loop_decoded round mdh model_animations decoded) by done.
    by destruct (last decoded).
  - rewrite lookup_fold_decoded, lookup_empty. split; [|by left].
    by intros [?|[? ?]].
Qed.

(** X14: folding two streams that hold no common (bone, track, key) gives
    the same merged entries and bones in either order, although the
    variable [man_data] is left holding a different decode. *)
Theorem merge_order_irrelevant_without_collisions (mdh : Mdh.t)
    (m1 m2 : ModelAnimation.t) (d1 d2 : Data.t (list float)) :
  parse_man round m1 mdh = Ok (Some d1) →
  parse_man round m2 mdh = Ok (Some d2) →
  (∀ b t i, entry_at (Data.frames d1) b t i = None ∨
            entry_at (Data.frames d2) b t i = None) →
  ∃ merged12 merged21,
    merge_loop round mdh [m1; m2] ∅ None = Ok (merged12, Some d2) ∧
    merge_loop round mdh [m2; m1] ∅ None = Ok (merged21, Some d1) ∧
    (∀ b t i, entry_at merged12 b t i = entry_at merged21 b t i) ∧
    (∀ b, is_Some (merged12 !! b) ↔ is_Some (merged21 !! b)).
Proof.
  intros H1 H2 Hdisjoint.
  exists (fold_decoded [d1; d2] ∅), (fold_decoded [d2; d1] ∅). split_and!.
  - by rewrite (merge_loop_decoded round mdh [m1; m2] [d1; d2])
      by (by repeat constructor).
  - by rewrite (merge_loop_decoded round mdh [m2; m1] [d2; d1])
      by (by repeat constructor).
  - intros b t i. simpl. rewrite !entry_at_merge_frames.
    destruct (Hdisjoint b t i) as [-> | ->]; simpl;
      by destruct (left_by_assignments _).
  - intros b. simpl. rewrite !lookup_merge_frames. tauto.
Qed.

(** X15: folding the same stream twice gives the entries and bones of
    folding it once. *)
Theorem merge_same_stream_twice (mdh : Mdh.t) (m : ModelAnimation.t)
    (d : Data.t (list float)) :
  parse_man round m mdh = Ok (Some d) →
  ∃ once twice,
    merge_loop round mdh [m] ∅ None = Ok (once, Some d) ∧
    merge_loop round mdh [m; m] ∅ None = Ok (twice, Some d) ∧
    (∀ b t i, entry_at twice b t i = entry_at once b t i) ∧
    (∀ b, is_Some (twice !! b) ↔ is_Some (once !! b)).
Proof.
  intros Hm.
  exists (fold_decoded [d] ∅), (fold_decoded [d; d] ∅). split_and!.
  - by rewrite (merge_loop_decoded round mdh [m] [d]) by (by repeat constructor).
  - by rewrite (merge_loop_decoded round mdh [m; m] [d; d]) by (by repeat constructor).
  - intros b t i. simpl. rewrite !entry_at_merge_frames.
    by destruct (left_by_assignments _).
  - intros b. simpl. rewrite !lookup_merge_frames. tauto.
Qed.
End MergerFacts.

(** ** The skeleton index *)

(** X16: the index keeps, for every checksum, the hierarchy file read last
    with that checksum: a lookup succeeds exactly when some file has the
    checksum, and a later file replaces an earlier one. *)
Theorem index_keeps_last_hierarchy (mdh_files : list Mdh.t) (c : Z) :
  mdh_by_checksum mdh_files !! c = last (filter (λ m, Mdh.checksum m = c) mdh_files).
Proof.
  unfold mdh_by_checksum.
  induction mdh_files as [|m mdh_files IH] using rev_ind; [done|].
  rewrite foldl_app, filter_app, filter_cons, filter_nil. simpl.
  case_decide as Hc.
  - subst c. by rewrite lookup_insert_eq, last_snoc.
  - by rewrite lookup_insert_ne, app_nil_r.
Qed.

(** ** Conversion of a source track: outcomes *)

Section ConvertOutcomes.
Variable round : float → Z → float.

(** X17: when the validation passes and every loaded stream decodes, the
    conversion writes one document, the decode of the stream loaded last,
    under the last file's relative path with [.json] appended, and prints
    the [prepared] line; then the read of [blender_script_file_path]
    raises [NameError]: the bake tool is not started, the closing line is
    not printed, and the call does not return normally. *)
Theorem convert_anis_writes_then_raises (asc_name mds_name : string) (anis : list Ani.t)
    (man_file_paths : list ManFile.t) (mdh_dict : gmap Z Mdh.t)
    (first_file last_file : ManFile.t) (mdh : Mdh.t)
    (decoded : list (Data.t (list float))) (last_decode : Data.t (list float)) :
  size (list_to_set (ModelAnimation.checksum <$> (ManFile.load <$> man_file_paths))
          : gset Z) = 1%nat →
  man_file_paths !! 0%nat = Some first_file →
  mdh_dict !! ModelAnimation.checksum (ManFile.load first_file) = Some mdh →
  Forall2 (λ f d, parse_man round (ManFile.load f) mdh = Ok (Some d))
          man_file_paths decoded →
  last man_file_paths = Some last_file →
  last decoded = Some last_decode →
  convert_anis round asc_name mds_name anis man_file_paths mdh_dict
  = ([WriteText (ManFile.relative_path last_file +:+ ".json")
        (json_of_man_data last_decode);
      Print ("prepared: " +:+ ManFile.relative_path last_file)], Raise NameError).
Proof.
  intros Hsize Hfirst Hmdh Hall Hfile Hdecode. unfold convert_anis.
  rewrite Hsize. simpl. unfold py_index.
  rewrite list_lookup_fmap, Hfirst. simpl. rewrite Hmdh.
  unfold loop_variable at 1. rewrite Hfile. simpl.
  rewrite (merge_model_animations_decoded round _ _ _ decoded last_file last_decode)
    by done.
  done.
Qed.

(** X18: the two ABORT lines.  A track whose loaded streams do not have
    exactly one checksum gets the "checksums are different" line; that
    includes a track for which no file was found at all.  A track whose
    single checksum is not in the index gets the "could not find correct
    MDH" line.  Nothing else is printed, written or started. *)
Theorem convert_anis_abort_lines (asc_name mds_name : string) (anis : list Ani.t)
    (man_file_paths : list ManFile.t) (mdh_dict : gmap Z Mdh.t) :
  let checksums : gset Z :=
    list_to_set (ModelAnimation.checksum <$> (ManFile.load <$> man_file_paths)) in
  (size checksums ≠ 1%nat →
   convert_anis round asc_name mds_name anis man_file_paths mdh_dict
   = ([Print ("ASC: " +:+ asc_name +:+ ", ani checksums are different. ABORT")], Ok ())) ∧
  (man_file_paths = [] → size checksums ≠ 1%nat) ∧
  (size checksums = 1%nat →
   (∀ f, man_file_paths !! 0%nat = Some f →
         mdh_dict !! ModelAnimation.checksum (ManFile.load f) = None) →
   convert_anis round asc_name mds_name anis man_file_paths mdh_dict
   = ([Print ("ASC: " +:+ asc_name +:+ ", could not find correct MDH. ABORT")], Ok ())).
Proof.
  intros checksums. split_and!.
  - intros Hsize. unfold convert_anis. fold checksums.
    by destruct (Nat.eqb_spec (size checksums) 1).
  - intros ->. done.
  - intros Hsize Hmissing. unfold convert_anis. fold checksums. rewrite Hsize. simpl.
    destruct man_file_paths as [|f files].
    { done. }
    simpl. by rewrite (Hmissing f).
Qed.

Lemma convert_anis_trace_shape asc_name mds_name anis man_file_paths mdh_dict :
  let '(trace, r) := convert_anis round asc_name mds_name anis man_file_paths mdh_dict in
  (∃ line, trace = [Print line] ∧ r = Ok ()) ∨
  (trace = [] ∧ ∃ e, r = Raise e ∧ (e = IndexError ∨ e = TypeError)) ∨
  (∃ f d, last man_file_paths = Some f ∧
     trace = [WriteText (ManFile.relative_path f +:+ ".json") d;
              Print ("prepared: " +:+ ManFile.relative_path f)] ∧
     r = Raise NameError).
Proof.
  unfold convert_anis.
  destruct (negb _); [left; by eexists|].
  destruct man_file_paths as [|f0 files] eqn:Hfiles.
  { simpl. right. left. split; [done|]. eexists. split; [done|by left]. }
  rewrite <-Hfiles. replace (py_index (ManFile.load <$> man_file_paths) 0)
    with (Ok (ManFile.load f0) : result ModelAnimation.t) by by rewrite Hfiles.
  simpl. destruct (mdh_dict !! _) as [mdh|]; [|left; by eexists].
  assert (∃ f, last man_file_paths = Some f) as [f Hf].
  { apply last_is_Some. by rewrite Hfiles. }
  unfold loop_variable at 1. rewrite Hf. simpl.
  unfold merge_model_animations, loop_variable. rewrite fmap_last, Hf. cbn -[merge_loop].
  destruct (merge_loop round mdh (ManFile.load <$> man_file_paths) ∅ None)
    as [[merged_frames man_data]|e] eqn:Hloop; simpl.
  - destruct (merge_loop_Some round _ _ _ _ _ _ Hloop) as [d ->].
    { left. by rewrite Hfiles. }
    simpl. right. right. by exists f, (json_of_man_data d).
  - right. left. split; [done|]. eexists. split; [done|].
    by eapply merge_loop_raises.
Qed.

(** With the index built by [convert], the merge loop of a track that
    passed the validation does not raise [TypeError]. *)
Lemma convert_anis_no_type_error asc_name mds_name anis man_file_paths mdh_files trace :
  convert_anis round asc_name mds_name anis man_file_paths (mdh_by_checksum mdh_files)
  ≠ (trace, Raise TypeError).
Proof.
  unfold convert_anis.
  destruct (Nat.eqb_spec
    (size (list_to_set (ModelAnimation.checksum <$> (ManFile.load <$> man_file_paths))
             : gset Z)) 1) as [Hsize|]; simpl; [|done].
  destruct man_file_paths as [|f0 files] eqn:Hfiles; [done|]. rewrite <-Hfiles.
  replace (py_index (ManFile.load <$> man_file_paths) 0)
    with (Ok (ManFile.load f0) : result ModelAnimation.t) by by rewrite Hfiles.
  simpl. destruct (mdh_by_checksum mdh_files !! _) as [mdh|] eqn:Hmdh; [|done].
  assert (∃ f, last man_file_paths = Some f) as [f Hf].
  { apply last_is_Some. by rewrite Hfiles. }
  unfold loop_variable at 1. rewrite Hf. simpl.
  unfold merge_model_animations, loop_variable. rewrite fmap_last, Hf. cbn -[merge_loop].
  destruct (merge_loop round mdh (ManFile.load <$> man_file_paths) ∅ None)
    as [[merged_frames man_data]|e] eqn:Hloop; simpl.
  - destruct (merge_loop_Some round _ _ _ _ _ _ Hloop) as [d ->]; [|done].
    left. by rewrite Hfiles.
  - intros [= _ ->]. revert Hloop. apply merge_loop_no_type_error.
    apply mdh_by_checksum_lookup in Hmdh.
    intros m Hm. rewrite Hmdh. rewrite Hfiles in Hm.
    eapply single_checksum; [exact Hsize|exact Hm|].
    apply list_elem_of_here.
Qed.

(** X19: the ways a conversion of a track ends.  When it raises, either
    the exception is [IndexError] or [TypeError] and nothing has been
    printed, written or started, or it is [NameError] and exactly the
    document under the last file's path and the [prepared] line came
    before it; with the index built by [convert] the first case is
    [IndexError] only.  When it returns normally, it has printed one line
    and nothing else: it returns only from the two ABORT branches. *)
Theorem convert_anis_raises (asc_name mds_name : string) (anis : list Ani.t)
    (man_file_paths : list ManFile.t) (trace : list event) (e : exn) :
  (∀ mdh_dict,
     convert_anis round asc_name mds_name anis man_file_paths mdh_dict = (trace, Raise e) →
     (trace = [] ∧ (e = IndexError ∨ e = TypeError)) ∨
     (e = NameError ∧
      ∃ f d, last man_file_paths = Some f ∧
             trace = [WriteText (ManFile.relative_path f +:+ ".json") d;
                      Print ("prepared: " +:+ ManFile.relative_path f)])) ∧
  (∀ mdh_files,
     convert_anis round asc_name mds_name anis man_file_paths (mdh_by_checksum mdh_files)
     = (trace, Raise e) →
     (trace = [] ∧ e = IndexError) ∨
     (e = NameError ∧
      ∃ f d, last man_file_paths = Some f ∧
             trace = [WriteText (ManFile.relative_path f +:+ ".json") d;
                      Print ("prepared: " +:+ ManFile.relative_path f)])) ∧
  (∀ mdh_dict,
     convert_anis round asc_name mds_name anis man_file_paths mdh_dict = (trace, Ok ()) →
     ∃ line, trace = [Print line]).
Proof.
  assert (Hany : ∀ mdh_dict,
     convert_anis round asc_name mds_name anis man_file_paths mdh_dict = (trace, Raise e) →
     (trace = [] ∧ (e = IndexError ∨ e = TypeError)) ∨
     (e = NameError ∧
      ∃ f d, last man_file_paths = Some f ∧
             trace = [WriteText (ManFile.relative_path f +:+ ".json") d;
                      Print ("prepared: " +:+ ManFile.relative_path f)])).
  { intros mdh_dict Hrun.
    pose proof (convert_anis_trace_shape asc_name mds_name anis man_file_paths mdh_dict)
      as Hshape.
    rewrite Hrun in Hshape.
    destruct Hshape as [(line & _ & ?)|[(-> & e' & Hr & He)|(f & d & Hf & -> & Hr)]].
    - done.
    - injection Hr as <-. by left.
    - injection Hr as ->. right. split; [done|]. by exists f, d. }
  split_and!; [done| |].
  - intros mdh_files Hrun.
    destruct (Hany _ Hrun) as [[Htrace [He|He]]|Hname]; [by left| |by right].
    subst e. by apply convert_anis_no_type_error in Hrun.
  - intros mdh_dict Hrun.
    pose proof (convert_anis_trace_shape asc_name mds_name anis man_file_paths mdh_dict)
      as Hshape.
    rewrite Hrun in Hshape.
    destruct Hshape as [(line & -> & _)|[(_ & e' & ? & _)|(f & d & _ & _ & ?)]];
      [by eexists|done|done].
Qed.
End ConvertOutcomes.

(** ** The loop over source tracks *)

Section TrackLoopFacts.
Variable round : float → Z → float.

Lemma convert_tracks_app mds_name man_file_path_list mdh_dict tracks1 tracks2 :
  convert_tracks round mds_name man_file_path_list mdh_dict (tracks1 ++ tracks2) =
  (_ ← convert_tracks round mds_name man_file_path_list mdh_dict tracks1;
   convert_tracks round mds_name man_file_path_list mdh_dict tracks2).
Proof.
  induction tracks1 as [|[asc_name anis] tracks1 IH]; simpl.
  { by destruct (convert_tracks _ _ _ _ tracks2). }
  rewrite IH.
  destruct (convert_anis _ _ _ _ _ _) as [tr [[]|e]]; simpl; [|done].
  destruct (convert_tracks _ _ _ _ tracks1) as [tr1 [[]|e1]]; simpl; [|done].
  destruct (convert_tracks _ _ _ _ tracks2) as [tr2 r2]; simpl.
  by rewrite app_assoc.
Qed.

(** X20: an exception raised while converting one source track ends the
    loop: the tracks after it are not converted, and the run ends with
    that exception after the effects of the tracks before it and the
    effects the failing track had before it raised. *)
Theorem exception_ends_track_loop (mds_name : string)
    (man_file_path_list : list ManFile.t) (mdh_dict : gmap Z Mdh.t)
    (before after : list (string * list Ani.t)) (asc_name : string) (anis : list Ani.t)
    (trace_before trace : list event) (e : exn) :
  let ani_names : gset string := list_to_set (Ani.name <$> anis) in
  let man_files := filter (λ path, ManFile.stem path ∈ ani_names) man_file_path_list in
  convert_tracks round mds_name man_file_path_list mdh_dict before = (trace_before, Ok ()) →
  convert_anis round asc_name mds_name anis man_files mdh_dict = (trace, Raise e) →
  convert_tracks round mds_name man_file_path_list mdh_dict
    (before ++ (asc_name, anis) :: after)
  = (trace_before ++ trace, Raise e).
Proof.
  intros ani_names man_files Hbefore Hraise.
  rewrite convert_tracks_app, Hbefore. simpl.
  fold ani_names. fold man_files. by rewrite Hraise.
Qed.

(** X21: over a whole run of the loop at most one document is written and
    the bake tool is never started: the first source track that passes
    the validation and decodes has its document written and then ends the
    loop with [NameError].  A document is written under the relative path
    of one of the listed files with [.json] appended. *)
Theorem track_loop_writes_at_most_one_document (mds_name : string)
    (man_file_path_list : list ManFile.t) (mdh_dict : gmap Z Mdh.t)
    (tracks : list (string * list Ani.t)) :
  let run := convert_tracks round mds_name man_file_path_list mdh_dict tracks in
  (length (documents_written run.1) ≤ 1)%nat ∧
  bake_runs run.1 = 0%nat ∧
  (documents_written run.1 ≠ [] → run.2 = Raise NameError) ∧
  ∀ p d, (p, d) ∈ documents_written run.1 →
         ∃ f, f ∈ man_file_path_list ∧ p = ManFile.relative_path f +:+ ".json".
Proof.
  intros run. subst run.
  induction tracks as [|[asc_name anis] tracks IH].
  { split_and!; [simpl; lia|done|done|]. by intros p d ?%elem_of_nil. }
  cbn [convert_tracks].
  set (man_files := filter _ man_file_path_list).
  pose proof (convert_anis_trace_shape round asc_name mds_name anis man_files mdh_dict)
    as Hshape.
  destruct (convert_anis _ _ _ _ _ _) as [tr r].
  destruct (convert_tracks _ _ _ _ tracks) as [tr' r'].
  cbn [fst snd] in IH. destruct IH as (IHlen & IHbake & IHraise & IHpath).
  destruct Hshape as [(line & -> & ->)|[(-> & e & -> & _)|(f & d & Hf & -> & ->)]];
    cbn [mbind io_bind fst snd].
  - change (documents_written ([Print line] ++ tr')) with (documents_written tr').
    change (bake_runs ([Print line] ++ tr')) with (bake_runs tr').
    done.
  - split_and!; [simpl; lia|done|done|]. by intros p d ?%elem_of_nil.
  - split_and!; [simpl; lia|done|done|].
    intros p d' Hin. apply list_elem_of_singleton in Hin. injection Hin as -> ->.
    exists f. split; [|done].
    apply last_Some_elem_of in Hf.
    by apply (list_elem_of_filter (λ path, ManFile.stem path ∈ _)) in Hf as [_ ?].
Qed.
End TrackLoopFacts.

(** ** The further properties at the example inputs *)

Lemma parse_man_entry_inv (round : float → Z → float) (man : ModelAnimation.t)
    (mdh : Mdh.t) (d : Data.t (list float)) b t i :
  parse_man round man mdh = Ok (Some d) →
  is_Some (entry_at (Data.frames d) b t i) →
  (i < length (ModelAnimation.samples man))%nat ∧
  cycled_bone_name (ModelAnimation.node_indices man) (Mdh.nodes mdh) i = Some b.
Proof.
  intros Hparse Hsome. unfold parse_man in Hparse. destruct (negb _); [done|].
  destruct (parse_samples round _ _ _ 0 0 ∅) as [frames|] eqn:Hrun; simpl in Hparse; [|done].
  injection Hparse as <-. simpl in Hsome.
  assert (Hbones : ∀ i, (i < length (ModelAnimation.samples man))%nat →
            is_Some (cycled_bone_name (ModelAnimation.node_indices man)
                       (Mdh.nodes mdh) i)).
  { intros j Hj.
    apply (parse_samples_ok_bones round (ModelAnimation.node_indices man) (Mdh.nodes mdh)
             (ModelAnimation.samples man) 0 0 ∅ frames); [|done|done].
    intros _. rewrite Nat.Div0.mod_0_l. by destruct (_ <=? _)%nat. }
  destruct (parse_samples_returns round _ _ _ Hbones) as (frames0 & Hok & _ & Honly).
  assert (frames0 = frames) as -> by congruence.
  apply Honly. destruct t; [by left|by right].
Qed.

Lemma range_analyzer_order_independent_example :
  is_continuous_and_non_overlapping Example.tiling_clips
  = is_continuous_and_non_overlapping Example.ordered_clips.
Proof.
  apply (range_analyzer_order_independent Example.tiling_clips Example.ordered_clips).
  - repeat constructor; unfold well_formed; simpl; lia.
  - apply (Permutation_cons_append
             [Example.clip "T_RUN_1" 0 9; Example.clip "T_RUN_2" 10 19]
             (Example.clip "T_RUN_3" 20 29)).
Defined.

Lemma accepted_clips_are_disjoint_example :
  NoDup Example.tiling_clips ∧
  ∀ a b, a ∈ Example.tiling_clips → b ∈ Example.tiling_clips → a ≠ b →
         Ani.last_frame a < Ani.first_frame b ∨ Ani.last_frame b < Ani.first_frame a.
Proof.
  apply (accepted_clips_are_disjoint Example.tiling_clips).
  - repeat constructor; unfold well_formed; simpl; lia.
  - vm_compute. reflexivity.
Defined.

Lemma accepted_clips_count_the_range_example :
  total_frames Example.tiling_clips = 29 - 0 + 1.
Proof.
  apply (accepted_clips_count_the_range Example.tiling_clips 0 29).
  - repeat constructor; unfold well_formed; simpl; lia.
  - vm_compute. reflexivity.
  - vm_compute. reflexivity.
Defined.


Lemma selector_idempotent_example :
  find_best_anis_combo "HUM_RUN.ASC" Example.redundant_clips
  = Ok [Example.clip "T_RUN_1" 0 9; Example.clip "T_RUN_2" 10 19] ∧
  find_best_anis_combo "OTHER.ASC" [Example.clip "T_RUN_1" 0 9; Example.clip "T_RUN_2" 10 19]
  = Ok [Example.clip "T_RUN_1" 0 9; Example.clip "T_RUN_2" 10 19].
Proof.
  split; [vm_compute; reflexivity|].
  apply (selector_idempotent "HUM_RUN.ASC" "OTHER.ASC" Example.redundant_clips).
  vm_compute. reflexivity.
Defined.

Lemma decode_shape_example :
  (Data.checksum (Example.decode Example.clip_a),
   Data.frame_count (Example.decode Example.clip_a),
   Data.fps (Example.decode Example.clip_a),
   Data.fps_source (Example.decode Example.clip_a),
   Data.layer (Example.decode Example.clip_a))
  = (ModelAnimation.checksum Example.clip_a, ModelAnimation.frame_count Example.clip_a,
     ModelAnimation.fps Example.clip_a, ModelAnimation.fps_source Example.clip_a,
     ModelAnimation.layer Example.clip_a) ∧
  Data.source_script (Example.decode Example.clip_a) = ∅ ∧
  (∀ b i v, translation_at (Data.frames (Example.decode Example.clip_a)) b i = Some v →
            length v = 3%nat) ∧
  (∀ b i v, rotation_at (Data.frames (Example.decode Example.clip_a)) b i = Some v →
            length v = 4%nat) ∧
  (∀ b, is_Some (Data.frames (Example.decode Example.clip_a) !! b) ↔
        ∃ i, (i < length (ModelAnimation.samples Example.clip_a))%nat ∧
             cycled_bone_name (ModelAnimation.node_indices Example.clip_a)
               (Mdh.nodes Example.skeleton) i = Some b).
Proof.
  apply (decode_shape Example.round_scaled Example.clip_a Example.skeleton).
  vm_compute. reflexivity.
Defined.

Lemma single_clip_merge_example :
  ∃ merged,
    merge_model_animations Example.round_scaled [Example.file_a] Example.skeleton
      (ModelAnimation.checksum (ManFile.load Example.file_a))
    = Ok (merged, Example.decode Example.clip_a) ∧
    Data.hierarchy merged = Example.skeleton ∧
    Data.checksum (Data.animation merged) = Data.checksum (Example.decode Example.clip_a) ∧
    Data.frame_count (Data.animation merged)
    = Data.frame_count (Example.decode Example.clip_a) ∧
    Data.fps (Data.animation merged) = Data.fps (Example.decode Example.clip_a) ∧
    Data.fps_source (Data.animation merged)
    = Data.fps_source (Example.decode Example.clip_a) ∧
    Data.layer (Data.animation merged) = Data.layer (Example.decode Example.clip_a) ∧
    ∀ b t i,
      entry_at (Data.frames (Data.animation merged)) b t i =
      left_by_assignments (entry_at (Data.frames (Example.decode Example.clip_a)) b t i).
Proof.
  apply (single_clip_merge Example.round_scaled Example.file_a Example.skeleton).
  vm_compute. reflexivity.
Defined.

Lemma merged_header_is_last_stream_example :
  ∃ merged,
    merge_model_animations Example.round_scaled [Example.file_a; Example.file_b]
      Example.skeleton 77
    = Ok (merged, Example.decode Example.clip_b) ∧
    parse_man Example.round_scaled (ManFile.load Example.file_b) Example.skeleton
    = Ok (Some (Example.decode Example.clip_b)) ∧
    Data.hierarchy merged = Example.skeleton ∧
    Data.checksum (Data.animation merged) = 77 ∧
    (Data.frame_count (Data.animation merged), Data.fps (Data.animation merged),
     Data.fps_source (Data.animation merged), Data.layer (Data.animation merged))
    = (ModelAnimation.frame_count (ManFile.load Example.file_b),
       ModelAnimation.fps (ManFile.load Example.file_b),
       ModelAnimation.fps_source (ManFile.load Example.file_b),
       ModelAnimation.layer (ManFile.load Example.file_b)) ∧
    Data.frames (Data.animation merged)
    = fold_decoded [Example.decode Example.clip_a; Example.decode Example.clip_b] ∅.
Proof.
  apply (merged_header_is_last_stream Example.round_scaled
           [Example.file_a; Example.file_b] Example.skeleton 77
           [Example.decode Example.clip_a; Example.decode Example.clip_b]
           Example.file_b (Example.decode Example.clip_b)).
  - repeat constructor; vm_compute; reflexivity.
  - reflexivity.
  - reflexivity.
Defined.

Lemma merged_bones_are_decoded_bones_example :
  ∃ merged_frames,
    merge_loop Example.round_scaled Example.skeleton [Example.clip_a; Example.clip_b] ∅ None
    = Ok (merged_frames,
          last [Example.decode Example.clip_a; Example.decode Example.clip_b]) ∧
    (is_Some (merged_frames !! "BIP01") ↔
     ∃ d, d ∈ [Example.decode Example.clip_a; Example.decode Example.clip_b] ∧
          is_Some (Data.frames d !! "BIP01")).
Proof.
  apply (merged_bones_are_decoded_bones Example.round_scaled Example.skeleton
           [Example.clip_a; Example.clip_b]
           [Example.decode Example.clip_a; Example.decode Example.clip_b] "BIP01").
  repeat constructor; vm_compute; reflexivity.
Defined.

Lemma merge_order_irrelevant_without_collisions_example :
  ∃ merged12 merged21,
    merge_loop Example.round_scaled Example.skeleton
      [Example.clip_a; Example.clip_swapped] ∅ None
    = Ok (merged12, Some (Example.decode Example.clip_swapped)) ∧
    merge_loop Example.round_scaled Example.skeleton
      [Example.clip_swapped; Example.clip_a] ∅ None
    = Ok (merged21, Some (Example.decode Example.clip_a)) ∧
    (∀ b t i, entry_at merged12 b t i = entry_at merged21 b t i) ∧
    (∀ b, is_Some (merged12 !! b) ↔ is_Some (merged21 !! b)).
Proof.
  assert (Ha : parse_man Example.round_scaled Example.clip_a Example.skeleton
               = Ok (Some (Example.decode Example.clip_a)))
    by (vm_compute; reflexivity).
  assert (Hs : parse_man Example.round_scaled Example.clip_swapped Example.skeleton
               = Ok (Some (Example.decode Example.clip_swapped)))
    by (vm_compute; reflexivity).
  apply (merge_order_irrelevant_without_collisions Example.round_scaled Example.skeleton
           Example.clip_a Example.clip_swapped
           (Example.decode Example.clip_a) (Example.decode Example.clip_swapped) Ha Hs).
  intros b t i.
  destruct (entry_at (Data.frames (Example.decode Example.clip_a)) b t i) eqn:E1;
    [right|left; reflexivity].
  destruct (entry_at (Data.frames (Example.decode Example.clip_swapped)) b t i) eqn:E2;
    [exfalso|reflexivity].
  destruct (parse_man_entry_inv _ _ _ _ b t i Ha) as [_ Hba];
    [rewrite E1; eexists; reflexivity|].
  destruct (parse_man_entry_inv _ _ _ _ b t i Hs) as [Hi Hbs];
    [rewrite E2; eexists; reflexivity|].
  simpl in Hi. destruct i as [|[|i]]; [| |lia];
    vm_compute in Hba, Hbs; congruence.
Defined.

Lemma merge_same_stream_twice_example :
  ∃ once twice,
    merge_loop Example.round_scaled Example.skeleton [Example.clip_a] ∅ None
    = Ok (once, Some (Example.decode Example.clip_a)) ∧
    merge_loop Example.round_scaled Example.skeleton [Example.clip_a; Example.clip_a] ∅ None
    = Ok (twice, Some (Example.decode Example.clip_a)) ∧
    (∀ b t i, entry_at twice b t i = entry_at once b t i) ∧
    (∀ b, is_Some (twice !! b) ↔ is_Some (once !! b)).
Proof.
  apply (merge_same_stream_twice Example.round_scaled Example.skeleton Example.clip_a).
  vm_compute. reflexivity.
Defined.

Lemma convert_anis_writes_then_raises_example :
  convert_anis Example.round_scaled "HUM_RUN.ASC" "HUMANS" Example.gapped_clips
    [Example.file_a; Example.file_b] (mdh_by_checksum [Example.skeleton])
  = ([WriteText "ANIMS/T_RUN_2.MAN.json" (json_of_man_data (Example.decode Example.clip_b));
      Print "prepared: ANIMS/T_RUN_2.MAN"], Raise NameError).
Proof.
  apply (convert_anis_writes_then_raises Example.round_scaled "HUM_RUN.ASC" "HUMANS"
           Example.gapped_clips [Example.file_a; Example.file_b]
           (mdh_by_checksum [Example.skeleton]) Example.file_a Example.file_b
           Example.skeleton
           [Example.decode Example.clip_a; Example.decode Example.clip_b]
           (Example.decode Example.clip_b)).
  - vm_compute. reflexivity.
  - reflexivity.
  - vm_compute. reflexivity.
  - repeat constructor; vm_compute; reflexivity.
  - reflexivity.
  - reflexivity.
Defined.

Lemma exception_ends_track_loop_example :
  convert_tracks Example.round_scaled "HUMANS" Example.man_file_path_list
    (mdh_by_checksum [Example.skeleton])
    ([("HUM_MIX.ASC"%string, Example.mixed_clips)] ++
     ("HUM_RUN.ASC"%string, Example.gapped_clips) ::
     [("HUM_RUN2.ASC"%string, Example.gapped_clips)])
  = ([Print "ASC: HUM_MIX.ASC, ani checksums are different. ABORT"] ++
     [WriteText "ANIMS/T_RUN_2.MAN.json" (json_of_man_data (Example.decode Example.clip_b));
      Print "prepared: ANIMS/T_RUN_2.MAN"],
     Raise NameError).
Proof.
  apply (exception_ends_track_loop Example.round_scaled "HUMANS" Example.man_file_path_list
           (mdh_by_checksum [Example.skeleton])
           [("HUM_MIX.ASC"%string, Example.mixed_clips)]
           [("HUM_RUN2.ASC"%string, Example.gapped_clips)]
           "HUM_RUN.ASC" Example.gapped_clips
           [Print "ASC: HUM_MIX.ASC, ani checksums are different. ABORT"]
           [WriteText "ANIMS/T_RUN_2.MAN.json"
              (json_of_man_data (Example.decode Example.clip_b));
            Print "prepared: ANIMS/T_RUN_2.MAN"]
           NameError).
  - vm_compute. reflexivity.
  - vm_compute. reflexivity.
Defined.
